(** * Unified Mail Platform: the synchronisation and ingestion pipeline

    A shallow embedding of the backend services that ingest mail
    (message.service.ts, sync.service.ts, vault.service.ts,
    gmail.adapter.ts, the Bull queue wiring and the workers) together with
    the constraints and the trigger of 001_initial_schema.sql, and the
    properties of the specification that are settled on it. *)

From Stdlib Require Import ZArith Lia Bool Ascii String List.
From stdpp Require Import base option list strings gmap.

#[local] Open Scope string_scope.
#[local] Open Scope Z_scope.

(* ===================================================================== *)
(** * Part I: the model *)
(* ===================================================================== *)

(** ** JavaScript strings

    A JavaScript string is a sequence of UTF-16 code units.  The model keeps
    the code units below 256 (Latin-1), one [ascii] each, which covers the
    prefixes, the white space and the case folding that the services use. *)
Module JS.

(** [\s] of a regular expression and the white space of
    [String.prototype.trim], restricted to code units below 256:
    TAB, LF, VT, FF, CR, SPACE and NBSP. *)
Definition is_space (c : ascii) : bool :=
  let n := nat_of_ascii c in
  ((9 <=? n) && (n <=? 13) || (n =? 32) || (n =? 160))%nat.

(** [toLowerCase] on one code unit: A-Z, and the Latin-1 capitals
    U+00C0-U+00DE except the multiplication sign U+00D7. *)
Definition lower_char (c : ascii) : ascii :=
  let n := nat_of_ascii c in
  if ((65 <=? n) && (n <=? 90)
      || (192 <=? n) && (n <=? 222) && negb (n =? 215))%nat
  then ascii_of_nat (n + 32) else c.

Fixpoint toLowerCase (s : string) : string :=
  match s with
  | EmptyString => EmptyString
  | String c s' => String (lower_char c) (toLowerCase s')
  end.

(** Two code units match under the [i] flag when their canonical forms
    agree; for the letters of the prefixes this is equality up to case. *)
Definition eq_ci (c p : ascii) : bool :=
  Ascii.eqb (lower_char c) (lower_char p).

Fixpoint trimStart (s : string) : string :=
  match s with
  | EmptyString => EmptyString
  | String c s' => if is_space c then trimStart s' else s
  end.

(** The string without its trailing white space: a suffix made of white
    space only is dropped. *)
Fixpoint trimEnd (s : string) : string :=
  match s with
  | EmptyString => EmptyString
  | String c s' =>
      match trimEnd s' with
      | EmptyString => if is_space c then EmptyString else String c EmptyString
      | r => String c r
      end
  end.

Definition trim (s : string) : string := trimEnd (trimStart s).

(** [s.substring(0, n)] for [0 <= n]. *)
Fixpoint substring0 (n : nat) (s : string) : string :=
  match n, s with
  | O, _ => EmptyString
  | _, EmptyString => EmptyString
  | S n', String c s' => String c (substring0 n' s')
  end.

(** Matching a literal case-insensitively at the head of [s]: the rest of
    [s] after the literal, when it matches. *)
Fixpoint match_literal_ci (p s : string) : option string :=
  match p, s with
  | EmptyString, _ => Some s
  | String _ _, EmptyString => None
  | String a p', String c s' =>
      if eq_ci c a then match_literal_ci p' s' else None
  end.

(** An optional string in a condition ([if (x)], [x || y]): it counts when
    it is present and not the empty string. *)
Definition truthy (x : option string) : option string :=
  match x with
  | Some EmptyString => None
  | other => other
  end.

End JS.

(** ** Results and errors *)

(** The failure taxonomy of the orchestrator.  The kind records what caused
    an error; the JavaScript [Error] object only carries the message, and no
    service reads anything else. *)
Inductive ErrorKind : Type :=
  | TransientProviderError   (* network, timeout, rate limit, 5xx *)
  | AuthError                (* credential invalid, revoked or missing *)
  | StorageError             (* database constraint or blob store failure *)
  | QueueError               (* the job queue cannot be reached *)
  | IndexError               (* the search engine cannot be reached *)
  | OtherError.

Record Error : Type := mkError { err_kind : ErrorKind; err_message : string }.

Definition credential_related (e : Error) : bool :=
  match err_kind e with AuthError => true | _ => false end.

Inductive Res (A : Type) : Type :=
  | Ok (a : A)
  | Throw (e : Error).
Arguments Ok {A} a.
Arguments Throw {A} e.

Definition is_ok {A} (r : Res A) : bool :=
  match r with Ok _ => true | Throw _ => false end.

(** ** The data model *)

(** Timestamps ([Date], [TIMESTAMP]) are milliseconds since the epoch. *)
Definition Timestamp : Type := Z.

(** [EmailAttachment] and [EmailMessage] of base.adapter.ts: the normalised
    message that an adapter hands to the message store.  The Gmail thread id,
    the header map and the HTML body only feed the [headers] and
    [body_preview] columns, which nothing in the pipeline reads back; they
    are left out together with those two columns. *)
Record EmailAttachment : Type := mkEmailAttachment {
  filename : string;
  contentType : string;
  size : Z;
  content : string;
}.

Record EmailMessage : Type := mkEmailMessage {
  messageId : string;
  subject : string;
  fromEmail : string;
  fromName : string;
  toEmails : list string;
  ccEmails : list string;
  bccEmails : list string;
  date : Timestamp;
  bodyText : string;
  hasAttachments : bool;
  attachments : list EmailAttachment;
  inReplyTo : option string;
  references : list string;
  folder : string;
  labels : list string;
  isRead : bool;
  isStarred : bool;
  rawEmail : string;
  sizeBytes : Z;
}.

Inductive AccountStatus : Type := active | auth_failed | disabled | syncing.
Inductive Provider : Type := gmail | office365 | imap | protonmail | smtp.
Inductive SyncJobStatus : Type := pending | running | completed | failed.

Definition AccountStatus_eqb (a b : AccountStatus) : bool :=
  match a, b with
  | active, active | auth_failed, auth_failed
  | disabled, disabled | syncing, syncing => true
  | _, _ => false
  end.

Definition SyncJobStatus_eqb (a b : SyncJobStatus) : bool :=
  match a, b with
  | pending, pending | running, running
  | completed, completed | failed, failed => true
  | _, _ => false
  end.

(** The tables of 001_initial_schema.sql that the pipeline touches.  A table
    is the list of its rows in insertion order. *)
Module Db.

Record AccountRow : Type := mkAccountRow {
  acc_id : string;
  acc_provider : Provider;
  acc_email : string;
  acc_status : AccountStatus;
  acc_last_sync_at : option Timestamp;
  acc_last_sync_error : option string;
  acc_sync_cursor : option Timestamp;
}.

Record ThreadRow : Type := mkThreadRow {
  thr_id : string;
  thr_subject_normalized : string;
  thr_first_message_date : Timestamp;
  thr_last_message_date : Timestamp;
  thr_message_count : Z;
  thr_participants : list string;
}.

Record MessageRow : Type := mkMessageRow {
  msg_id : string;
  msg_account_id : string;
  msg_message_id : string;
  msg_thread_id : string;
  msg_folder : string;
  msg_subject : string;
  msg_from_email : string;
  msg_from_name : string;
  msg_to_emails : list string;
  msg_cc_emails : list string;
  msg_bcc_emails : list string;
  msg_date : Timestamp;
  msg_has_attachments : bool;
  msg_is_read : bool;
  msg_is_starred : bool;
  msg_is_spam : bool;
  msg_labels : list string;
  msg_s3_key : string;
  msg_body_text_preview : string;
  msg_in_reply_to : option string;
  msg_references : list string;
  msg_size_bytes : Z;
}.

Record AttachmentRow : Type := mkAttachmentRow {
  att_id : string;
  att_message_id : string;
  att_filename : string;
  att_content_type : string;
  att_size_bytes : Z;
  att_s3_key : string;
  att_checksum : string;
}.

(** [sync_jobs.id] defaults to [uuid_generate_v4()]; the model numbers the
    generated identifiers, so the n-th generated one is [n]. *)
Record SyncJobRow : Type := mkSyncJobRow {
  job_id : nat;
  job_account_id : string;
  job_status : SyncJobStatus;
  job_started_at : option Timestamp;
  job_completed_at : option Timestamp;
  job_messages_synced : Z;
  job_error_message : option string;
}.

Record t : Type := mkDb {
  accounts : list AccountRow;
  threads : list ThreadRow;
  messages : list MessageRow;
  attachments : list AttachmentRow;
  sync_jobs : list SyncJobRow;
  uuid_generated : nat;
}.

Definition empty : t := mkDb [] [] [] [] [] 0.

Definition with_accounts (d : t) (x : list AccountRow) : t :=
  mkDb x (threads d) (messages d) (attachments d) (sync_jobs d) (uuid_generated d).
Definition with_threads (d : t) (x : list ThreadRow) : t :=
  mkDb (accounts d) x (messages d) (attachments d) (sync_jobs d) (uuid_generated d).
Definition with_messages (d : t) (x : list MessageRow) : t :=
  mkDb (accounts d) (threads d) x (attachments d) (sync_jobs d) (uuid_generated d).
Definition with_attachments (d : t) (x : list AttachmentRow) : t :=
  mkDb (accounts d) (threads d) (messages d) x (sync_jobs d) (uuid_generated d).
Definition with_sync_jobs (d : t) (x : list SyncJobRow) (n : nat) : t :=
  mkDb (accounts d) (threads d) (messages d) (attachments d) x n.

End Db.

(** ** Credentials, search documents and the state of the platform *)

Record OAuthTokens : Type := mkOAuthTokens {
  access_token : string;
  refresh_token : string;
  expires_at : Z;
}.

(** [AccountCredentials] of vault.service.ts; the [imap] and [smtp] members
    are kept as one opaque field each. *)
Record AccountCredentials : Type := mkAccountCredentials {
  cred_provider : Provider;
  cred_email : string;
  oauth : option OAuthTokens;
  cred_imap : option string;
  cred_smtp : option string;
}.

(** [IndexedMessage] of search.service.ts, without the HTML body. *)
Record IndexedMessage : Type := mkIndexedMessage {
  ix_message_uuid : string;
  ix_account_id : string;
  ix_message_id : string;
  ix_subject : string;
  ix_from_email : string;
  ix_from_name : string;
  ix_to_emails : list string;
  ix_date : Timestamp;
  ix_body_text : string;
  ix_folder : string;
  ix_labels : list string;
  ix_has_attachments : bool;
  ix_attachment_filenames : list string;
  ix_is_read : bool;
  ix_is_starred : bool;
}.

Inductive LogLevel : Type := LogWarn | LogError.

Record LogEntry : Type := mkLogEntry {
  log_context : string;
  log_level : LogLevel;
  log_text : string;
  log_subject : string;   (* the account, message or record the entry names *)
}.

(** What the services act on: the database, the blob store (bucket key to
    body), the secret vault (account id to credentials), the Bull queue of
    index jobs (the message ids waiting), the search index (document id to
    document), the warn and error lines of the log, and the number of
    [nanoid()] calls made so far. *)
Record State : Type := mkState {
  db : Db.t;
  s3 : gmap string string;
  vault : gmap string AccountCredentials;
  index_queue : list string;
  search_index : gmap string IndexedMessage;
  log : list LogEntry;
  nanoid_calls : nat;
}.

Definition initial_state : State := mkState Db.empty ∅ ∅ [] ∅ [] 0.

Definition with_db (s : State) (d : Db.t) : State :=
  mkState d (s3 s) (vault s) (index_queue s) (search_index s) (log s) (nanoid_calls s).
Definition with_s3 (s : State) (x : gmap string string) : State :=
  mkState (db s) x (vault s) (index_queue s) (search_index s) (log s) (nanoid_calls s).
Definition with_vault (s : State) (x : gmap string AccountCredentials) : State :=
  mkState (db s) (s3 s) x (index_queue s) (search_index s) (log s) (nanoid_calls s).
Definition with_index_queue (s : State) (x : list string) : State :=
  mkState (db s) (s3 s) (vault s) x (search_index s) (log s) (nanoid_calls s).
Definition with_search_index (s : State) (x : gmap string IndexedMessage) : State :=
  mkState (db s) (s3 s) (vault s) (index_queue s) x (log s) (nanoid_calls s).
Definition with_log (s : State) (x : list LogEntry) : State :=
  mkState (db s) (s3 s) (vault s) (index_queue s) (search_index s) x (nanoid_calls s).
Definition with_nanoid_calls (s : State) (n : nat) : State :=
  mkState (db s) (s3 s) (vault s) (index_queue s) (search_index s) (log s) n.

(** ** The environment

    Everything the services do not decide themselves: the clock, the random
    identifiers, the answers of the mail provider and of the parser, and
    which calls to the external stores fail. *)

(** A message as [gmail.users.messages.get] returns it with [format: 'raw']. *)
Record GmailMessage : Type := mkGmailMessage {
  raw : option string;
  labelIds : list string;
}.

(** [ParsedMail] of mailparser, as far as the adapter reads it. *)
Record ParsedMail : Type := mkParsedMail {
  p_messageId : option string;
  p_subject : option string;
  p_from : option (string * string);     (* address, name of the first sender *)
  p_to : list string;
  p_cc : list string;
  p_bcc : list string;
  p_date : option Timestamp;
  p_text : option string;
  p_attachments : list EmailAttachment;
  p_inReplyTo : option string;
  p_references : list string;
}.

(** The query of [GmailAdapter.buildQuery]: [after:<seconds>] and
    [in:<folder>], absent or present. *)
Record GmailQuery : Type := mkGmailQuery {
  q_after : option Z;
  q_in : option string;
}.

Record World : Type := mkWorld {
  now : Timestamp;
  (** [LocalTZA(t, isUTC)]: the offset of local time from UTC in
      milliseconds, at the UTC instant [t] or at the local time value [t] *)
  LocalTZA : Z -> bool -> Z;
  nanoid : nat -> string;
  gmail_getProfile : option Error;                      (* [Some e]: rejects *)
  gmail_list : GmailQuery -> Z -> Res (list string);
  gmail_get : string -> Res GmailMessage;
  simpleParser : string -> Res ParsedMail;
  s3_putObject : string -> option Error;                (* by key *)
  s3_getObject : string -> option Error;
  generateMessageKey : string -> string -> Timestamp -> string;
  generateAttachmentKey : string -> string -> string -> string -> string;
  sha256_hex : string -> string;
  vault_outage : option Error;
  queue_add : string -> option Error;                   (* by message id *)
  es_index : string -> option Error;                    (* by document id *)
}.

(** ** The statements the services send to the database

    Each statement is atomic, and the database always answers.  An
    [INSERT] enforces the constraints of the schema (primary key,
    [UNIQUE(account_id, message_id)], foreign keys) and rejects with a
    [StorageError] when one is violated; the row-level trigger
    [update_thread_after_message] runs with the insert. *)
Module Sql.
Import Db.

Definition constraint_violation (name : string) : Error :=
  mkError StorageError name.

Definition same_key (accountId messageId : string) (m : MessageRow) : bool :=
  String.eqb (msg_account_id m) accountId && String.eqb (msg_message_id m) messageId.

Definition in_thread (threadId : string) (m : MessageRow) : bool :=
  String.eqb (msg_thread_id m) threadId.

(** [SELECT * FROM messages WHERE account_id = $1 AND message_id = $2],
    first row. *)
Definition select_message_by_account_and_message_id
    (accountId messageId : string) (d : t) : option MessageRow :=
  List.find (same_key accountId messageId) (messages d).

(** [SELECT * FROM messages WHERE id = $1], first row. *)
Definition select_message_by_id (id : string) (d : t) : option MessageRow :=
  List.find (fun m => String.eqb (msg_id m) id) (messages d).

(** [SELECT thread_id FROM messages WHERE message_id = $1 LIMIT 1] *)
Definition select_thread_id_by_message_id (ref : string) (d : t) : option string :=
  option_map msg_thread_id
    (List.find (fun m => String.eqb (msg_message_id m) ref) (messages d)).

(** [SELECT id FROM threads WHERE subject_normalized = $1 LIMIT 1]: there is
    no [ORDER BY]; the model returns the first matching row of the table. *)
Definition select_thread_by_subject (normalized : string) (d : t) : option string :=
  option_map thr_id
    (List.find (fun th => String.eqb (thr_subject_normalized th) normalized) (threads d)).

(** [SELECT * FROM attachments WHERE message_id = $1] *)
Definition select_attachments (id : string) (d : t) : list AttachmentRow :=
  List.filter (fun a => String.eqb (att_message_id a) id) (attachments d).

(** [INSERT INTO threads (...)]; [message_count] takes its default, 1. *)
Definition insert_thread (r : ThreadRow) (d : t) : Res t :=
  if existsb (fun th => String.eqb (thr_id th) (thr_id r)) (threads d)
  then Throw (constraint_violation "threads_pkey")
  else Ok (with_threads d (threads d ++ [r])).

(** The distinct values of a list, first occurrences kept ([new Set(...)],
    [ARRAY_AGG(DISTINCT ...)]). *)
Fixpoint distinct (seen l : list string) : list string :=
  match l with
  | [] => []
  | x :: l' =>
      if existsb (String.eqb x) seen then distinct seen l'
      else x :: distinct (x :: seen) l'
  end.

(** The trigger function [update_thread_participants()], run for the row
    [NEW] after it was inserted: the thread [NEW.thread_id] gets its
    participants, its [message_count] and its [last_message_date] recomputed
    from the messages that reference it. *)
Definition update_thread_participants (NEW : MessageRow) (d : t) : t :=
  let of_thread := List.filter (in_thread (msg_thread_id NEW)) (messages d) in
  let emails :=
    flat_map (fun m => (msg_to_emails m ++ msg_cc_emails m ++ [msg_from_email m])%list)
      of_thread in
  let recompute (th : ThreadRow) : ThreadRow :=
    if String.eqb (thr_id th) (msg_thread_id NEW)
    then mkThreadRow (thr_id th) (thr_subject_normalized th)
           (thr_first_message_date th)
           (fold_right Z.max (msg_date NEW) (List.map msg_date of_thread))
           (Z.of_nat (length of_thread))
           (distinct [] emails)
    else th in
  with_threads d (List.map recompute (threads d)).

(** [INSERT INTO messages (...) RETURNING *] *)
Definition insert_message (r : MessageRow) (d : t) : Res t :=
  if existsb (fun m => String.eqb (msg_id m) (msg_id r)) (messages d)
  then Throw (constraint_violation "messages_pkey")
  else if existsb (same_key (msg_account_id r) (msg_message_id r)) (messages d)
  then Throw (constraint_violation "messages_account_id_message_id_key")
  else if negb (existsb (fun a => String.eqb (acc_id a) (msg_account_id r)) (accounts d))
  then Throw (constraint_violation "messages_account_id_fkey")
  else if negb (existsb (fun th => String.eqb (thr_id th) (msg_thread_id r)) (threads d))
  then Throw (constraint_violation "messages_thread_id_fkey")
  else Ok (update_thread_participants r (with_messages d (messages d ++ [r]))).

(** [INSERT INTO attachments (...)] *)
Definition insert_attachment (r : AttachmentRow) (d : t) : Res t :=
  if existsb (fun a => String.eqb (att_id a) (att_id r)) (attachments d)
  then Throw (constraint_violation "attachments_pkey")
  else if negb (existsb (fun m => String.eqb (msg_id m) (att_message_id r)) (messages d))
  then Throw (constraint_violation "attachments_message_id_fkey")
  else Ok (with_attachments d (attachments d ++ [r])).

(** [SELECT * FROM accounts WHERE id = $1], first row. *)
Definition select_account (accountId : string) (d : t) : option AccountRow :=
  List.find (fun a => String.eqb (acc_id a) accountId) (accounts d).

(** [UPDATE accounts SET status = $1, last_sync_error = $2 WHERE id = $3] *)
Definition update_account_status
    (accountId : string) (status : AccountStatus) (error : option string) (d : t) : t :=
  with_accounts d
    (List.map (fun a =>
       if String.eqb (acc_id a) accountId
       then mkAccountRow (acc_id a) (acc_provider a) (acc_email a) status
              (acc_last_sync_at a) error (acc_sync_cursor a)
       else a) (accounts d)).

(** [UPDATE accounts SET sync_cursor = $1, last_sync_at = $2 WHERE id = $3] *)
Definition update_sync_cursor
    (accountId : string) (cursor lastSyncAt : Timestamp) (d : t) : t :=
  with_accounts d
    (List.map (fun a =>
       if String.eqb (acc_id a) accountId
       then mkAccountRow (acc_id a) (acc_provider a) (acc_email a) (acc_status a)
              (Some lastSyncAt) (acc_last_sync_error a) (Some cursor)
       else a) (accounts d)).

(** [INSERT INTO sync_jobs (account_id, status, started_at)
     VALUES ($1, 'running', NOW()) RETURNING id] *)
Definition insert_running_sync_job (accountId : string) (NOW : Timestamp) (d : t)
    : Res (nat * t) :=
  if negb (existsb (fun a => String.eqb (acc_id a) accountId) (accounts d))
  then Throw (constraint_violation "sync_jobs_account_id_fkey")
  else
    let id := uuid_generated d in
    Ok (id, with_sync_jobs d
              (sync_jobs d ++ [mkSyncJobRow id accountId running (Some NOW) None 0 None])
              (S id)).

(** [UPDATE sync_jobs SET status = 'completed', completed_at = NOW(),
     messages_synced = $1 WHERE id = $2] *)
Definition update_sync_job_completed
  (messagesSynced : Z) (id : nat) (NOW : Timestamp) (d : t) : t :=
  with_sync_jobs d
    (List.map (fun j =>
       if Nat.eqb (job_id j) id
       then mkSyncJobRow (job_id j) (job_account_id j) completed (job_started_at j)
              (Some NOW) messagesSynced (job_error_message j)
       else j) (sync_jobs d))
    (uuid_generated d).

(** [UPDATE sync_jobs SET status = 'failed', completed_at = NOW(),
     error_message = $1 WHERE id = $2] *)
Definition update_sync_job_failed
  (errorMessage : string) (id : nat) (NOW : Timestamp) (d : t) : t :=
  with_sync_jobs d
    (List.map (fun j =>
       if Nat.eqb (job_id j) id
       then mkSyncJobRow (job_id j) (job_account_id j) failed (job_started_at j)
              (Some NOW) (job_messages_synced j) (Some errorMessage)
       else j) (sync_jobs d))
    (uuid_generated d).

End Sql.

(** ** The monad of the services

    Every service method is an [async] function that either resolves with a
    value or rejects with an [Error]; the effects it performed before
    rejecting stay.  [M A] threads the state and carries the rejection. *)
Definition M (A : Type) : Type := State -> Res A * State.

Definition ret {A} (a : A) : M A := fun s => (Ok a, s).
Definition throw {A} (e : Error) : M A := fun s => (Throw e, s).

Definition bind {A B} (m : M A) (k : A -> M B) : M B :=
  fun s => match m s with
           | (Ok a, s') => k a s'
           | (Throw e, s') => (Throw e, s')
           end.

(** [try { m } catch (error) { h error }] *)
Definition try_catch {A} (m : M A) (h : Error -> M A) : M A :=
  fun s => match m s with
           | (Ok a, s') => (Ok a, s')
           | (Throw e, s') => h e s'
           end.

Definition gets {A} (f : State -> A) : M A := fun s => (Ok (f s), s).
Definition modify (f : State -> State) : M unit := fun s => (Ok tt, f s).

(** [for (const x of xs) { body x }] with an accumulator. *)
Fixpoint for_each {A B} (xs : list A) (acc : B) (body : A -> B -> M B) : M B :=
  match xs with
  | [] => ret acc
  | x :: xs' => bind (body x acc) (fun acc' => for_each xs' acc' body)
  end.
Declare Scope service_scope.
Delimit Scope service_scope with service.
Notation "'let*' x ':=' m 'in' k" := (bind m (fun x => k))
  (at level 10, x name, m at level 100, k at level 200) : service_scope.

#[local] Open Scope service_scope.

(** ** Primitive effects *)

Definition db_read {A} (q : Db.t -> A) : M A := gets (fun s => q (db s)).

Definition db_update (q : Db.t -> Db.t) : M unit :=
  modify (fun s => with_db s (q (db s))).

Definition db_exec (q : Db.t -> Res Db.t) : M unit :=
  fun s => match q (db s) with
           | Ok d => (Ok tt, with_db s d)
           | Throw e => (Throw e, s)
           end.

Definition db_returning {A} (q : Db.t -> Res (A * Db.t)) : M A :=
  fun s => match q (db s) with
           | Ok (a, d) => (Ok a, with_db s d)
           | Throw e => (Throw e, s)
           end.

Definition call_nanoid (w : World) : M string :=
  fun s => (Ok (nanoid w (nanoid_calls s)), with_nanoid_calls s (S (nanoid_calls s))).

Definition logger (context : string) (level : LogLevel) (text about : string) : M unit :=
  modify (fun s => with_log s (log s ++ [mkLogEntry context level text about])).

(** An external call that rejects when the environment says so. *)
Definition external (failure : option Error) : M unit :=
  match failure with
  | Some e => throw e
  | None => ret tt
  end.

(** ** storage.service.ts *)
Module StorageService.

Definition storeMessage (w : World)
    (accountId messageId rawEmail : string) (date : Timestamp) : M string :=
  try_catch
    (let key := generateMessageKey w accountId messageId date in
     let* _ := external (s3_putObject w key) in
     let* _ := modify (fun s => with_s3 s (<[key := rawEmail]> (s3 s))) in
     ret key)
    (fun error =>
     let* _ := logger "storage" LogError "Failed to store message" messageId in
     throw error).

Definition storeAttachment (w : World)
    (accountId messageId attachmentId filename content contentType : string)
    : M (string * string) :=
  try_catch
    (let key := generateAttachmentKey w accountId messageId attachmentId filename in
     let checksum := sha256_hex w content in
     let* _ := external (s3_putObject w key) in
     let* _ := modify (fun s => with_s3 s (<[key := content]> (s3 s))) in
     ret (key, checksum))
    (fun error =>
     let* _ := logger "storage" LogError "Failed to store attachment" messageId in
     throw error).

Definition getMessage (w : World) (s3Key : string) : M string :=
  try_catch
    (let* _ := external (s3_getObject w s3Key) in
     let* body := gets (fun s => s3 s !! s3Key) in
     match body with
     | Some b => ret b
     | None => throw (mkError StorageError "NoSuchKey")
     end)
    (fun error =>
     let* _ := logger "storage" LogError "Failed to retrieve message" s3Key in
     throw error).

End StorageService.

(** ** message.service.ts *)
Module MessageService.

(** The alternatives of the group [(re|fwd|fw)], in the order the regular
    expression tries them. *)
Definition prefixes : list string := ["re"; "fwd"; "fw"].

(** One attempt to match [/^(re|fwd|fw):\s*/i] with the match starting at
    index [index] of the subject, [s] being the subject from that index on:
    the text after the match.  [^] has no [m] flag, so it asserts that the
    match starts at index 0; [\s*] is greedy. *)
Definition exec_at (index : nat) (s : string) : option string :=
  if Nat.eqb index 0 then
    let try_alternative (found : option string) (alt : string) :=
      match found with
      | Some rest => Some rest
      | None => JS.match_literal_ci (alt +:+ ":") s
      end in
    option_map JS.trimStart (fold_left try_alternative prefixes None)
  else None.

(** [subject.replace(/^(re|fwd|fw):\s*/gi, '')]: with the [g] flag every
    match is replaced, the search resuming where the previous match ended
    and moving on by one code unit where there is none. *)
Fixpoint replace_loop (fuel index : nat) (s : string) : string :=
  match fuel with
  | O => s
  | S fuel' =>
      match exec_at index s with
      | Some rest =>
          replace_loop fuel' (index + (String.length s - String.length rest)) rest
      | None =>
          match s with
          | EmptyString => EmptyString
          | String c s' => String c (replace_loop fuel' (S index) s')
          end
      end
  end.

Definition replace_prefixes (s : string) : string :=
  replace_loop (S (String.length s)) 0 s.

Definition normalizeSubject (subject : string) : string :=
  JS.substring0 255 (JS.toLowerCase (JS.trim (replace_prefixes subject))).

Definition getMessageByAccountAndMessageId (accountId messageId : string)
    : M (option Db.MessageRow) :=
  db_read (Sql.select_message_by_account_and_message_id accountId messageId).

Definition getMessageById (messageId : string) : M (option Db.MessageRow) :=
  db_read (Sql.select_message_by_id messageId).

Definition getMessageAttachments (messageId : string) : M (list Db.AttachmentRow) :=
  db_read (Sql.select_attachments messageId).

Definition findOrCreateThread (w : World) (emailMessage : EmailMessage) : M string :=
  try_catch
    ((* Try to find existing thread by In-Reply-To *)
     let* byReference :=
       match JS.truthy (inReplyTo emailMessage) with
       | Some ref => db_read (Sql.select_thread_id_by_message_id ref)
       | None => ret None
       end in
     match byReference with
     | Some thread_id => ret thread_id
     | None =>
         (* Try to find by normalized subject *)
         let normalizedSubject := normalizeSubject (subject emailMessage) in
         let* bySubject := db_read (Sql.select_thread_by_subject normalizedSubject) in
         match bySubject with
         | Some id => ret id
         | None =>
             (* Create new thread *)
             let* threadId := call_nanoid w in
             let participants :=
               Sql.distinct []
                 (fromEmail emailMessage
                    :: (toEmails emailMessage ++ ccEmails emailMessage)%list) in
             let* _ := db_exec (Sql.insert_thread
                         (Db.mkThreadRow threadId normalizedSubject
                            (date emailMessage) (date emailMessage) 1 participants)) in
             ret threadId
         end
     end)
    (fun error =>
     let* _ := logger "message-service" LogError "Failed to find or create thread"
                 (messageId emailMessage) in
     throw error).

(** The row that [storeMessage] inserts; [bodyTextPreview] is the first 500
    code units of the text body, [is_spam] says whether the folder is
    [Spam]. *)
Definition message_row (messageUuid accountId : string) (emailMessage : EmailMessage)
    (threadId s3Key : string) : Db.MessageRow :=
  let bodyTextPreview := JS.substring0 500 (bodyText emailMessage) in
  Db.mkMessageRow messageUuid accountId (messageId emailMessage) threadId
    (folder emailMessage) (subject emailMessage)
    (fromEmail emailMessage) (fromName emailMessage)
    (toEmails emailMessage) (ccEmails emailMessage) (bccEmails emailMessage)
    (date emailMessage) (hasAttachments emailMessage)
    (isRead emailMessage) (isStarred emailMessage)
    (String.eqb (folder emailMessage) "Spam")
    (labels emailMessage) s3Key bodyTextPreview
    (inReplyTo emailMessage) (references emailMessage)
    (sizeBytes emailMessage).

Definition storeMessage (w : World) (accountId : string) (emailMessage : EmailMessage)
    : M Db.MessageRow :=
  try_catch
    (let* messageUuid := call_nanoid w in
     (* Check if message already exists (deduplication) *)
     let* existing := getMessageByAccountAndMessageId accountId (messageId emailMessage) in
     match existing with
     | Some row => ret row
     | None =>
         (* Store raw email in S3 *)
         let* s3Key := StorageService.storeMessage w accountId (messageId emailMessage)
                         (rawEmail emailMessage) (date emailMessage) in
         (* Store attachments in S3, and their metadata *)
         let* _ := for_each (attachments emailMessage) tt (fun attachment _ =>
             let* attachmentId := call_nanoid w in
             let* stored := StorageService.storeAttachment w accountId
                              (messageId emailMessage) attachmentId
                              (filename attachment) (content attachment)
                              (contentType attachment) in
             db_exec (Sql.insert_attachment
                        (Db.mkAttachmentRow attachmentId messageUuid (filename attachment)
                           (contentType attachment) (size attachment)
                           (fst stored) (snd stored)))) in
         (* Find or create thread *)
         let* threadId := findOrCreateThread w emailMessage in
         (* Store message metadata *)
         let row := message_row messageUuid accountId emailMessage threadId s3Key in
         let* _ := db_exec (Sql.insert_message row) in
         ret row
     end)
    (fun error =>
     let* _ := logger "message-service" LogError "Failed to store message"
                 (messageId emailMessage) in
     throw error).

End MessageService.

(** ** vault.service.ts *)
Module VaultService.

(** [client.read(path)] answers 404 for a path that holds nothing, which
    [getAccountCredentials] turns into [null]; any other failure is thrown. *)
Definition getAccountCredentials (w : World) (accountId : string)
    : M (option AccountCredentials) :=
  match vault_outage w with
  | Some error =>
      let* _ := logger "vault" LogError "Failed to retrieve account credentials" accountId in
      throw error
  | None =>
      let* found := gets (fun s => vault s !! accountId) in
      match found with
      | Some credentials => ret (Some credentials)
      | None =>
          let* _ := logger "vault" LogWarn "Account credentials not found" accountId in
          ret None
      end
  end.

Definition storeAccountCredentials (w : World) (accountId : string)
    (credentials : AccountCredentials) : M unit :=
  try_catch
    (let* _ := external (vault_outage w) in
     modify (fun s => with_vault s (<[accountId := credentials]> (vault s))))
    (fun error =>
     let* _ := logger "vault" LogError "Failed to store account credentials" accountId in
     throw error).

(** [credentials.oauth = oauth] *)
Definition set_oauth (credentials : AccountCredentials) (tokens : OAuthTokens)
    : AccountCredentials :=
  mkAccountCredentials (cred_provider credentials) (cred_email credentials)
    (Some tokens) (cred_imap credentials) (cred_smtp credentials).

Definition updateOAuthTokens (w : World) (accountId : string) (tokens : OAuthTokens)
    : M unit :=
  try_catch
    (let* credentials := getAccountCredentials w accountId in
     match credentials with
     | None => throw (mkError AuthError "Account credentials not found")
     | Some credentials =>
         storeAccountCredentials w accountId (set_oauth credentials tokens)
     end)
    (fun error =>
     let* _ := logger "vault" LogError "Failed to update OAuth tokens" accountId in
     throw error).

End VaultService.

(** ** queues/index.ts *)
Module Queues.

(** [defaultJobOptions] of [queueConfig]. *)
Record JobOptions : Type := mkJobOptions {
  attempts : nat;
  backoff_exponential : bool;
  backoff_delay : Z;
}.

Definition defaultJobOptions : JobOptions := mkJobOptions 3 true 2000.

(** [addIndexJob(messageId)]: [indexQueue.add] rejects when the queue cannot
    be reached. *)
Definition addIndexJob (w : World) (messageId : string) : M unit :=
  let* _ := external (queue_add w messageId) in
  modify (fun s => with_index_queue s (index_queue s ++ [messageId])).

End Queues.

(** ** gmail.adapter.ts *)
Module GmailAdapter.

Record SyncOptions : Type := mkSyncOptions {
  sinceDate : option Timestamp;
  opt_folder : option string;
  maxMessages : option Z;
}.

(** What the OAuth client passes to the ['tokens'] listener. *)
Record Tokens : Type := mkTokens {
  tok_access_token : string;
  tok_refresh_token : option string;
  tok_expiry_date : Z;
}.

(** The listener that the constructor registers with
    [oauth2Client.on('tokens', ...)]. *)
Definition on_tokens (w : World) (accountId : string) (tokens : Tokens) : M unit :=
  match JS.truthy (tok_refresh_token tokens) with
  | Some refresh =>
      VaultService.updateOAuthTokens w accountId
        (mkOAuthTokens (tok_access_token tokens) refresh (tok_expiry_date tokens))
  | None => ret tt
  end.

Definition testConnection (w : World) (accountId : string) : M bool :=
  try_catch
    (let* _ := external (gmail_getProfile w) in ret true)
    (fun error =>
     let* _ := logger "gmail-adapter" LogError "Gmail connection test failed" accountId in
     ret false).

Definition buildQuery (options : SyncOptions) : GmailQuery :=
  let after := option_map (fun d => d / 1000) (sinceDate options) in
  let in_folder :=
    match JS.truthy (opt_folder options) with
    | Some f => if String.eqb f "INBOX" then None else Some (JS.toLowerCase f)
    | None => None
    end in
  match after, in_folder with
  | None, None => mkGmailQuery None (Some "inbox")
  | _, _ => mkGmailQuery after in_folder
  end.

Definition includes (l : list string) (x : string) : bool := existsb (String.eqb x) l.

Definition determineFolder (labels : list string) : string :=
  if includes labels "SENT" then "Sent"
  else if includes labels "DRAFT" then "Drafts"
  else if includes labels "TRASH" then "Trash"
  else if includes labels "SPAM" then "Spam"
  else "INBOX".

(** [x || fallback] on an optional string. *)
Definition or_else (x : option string) (fallback : string) : string :=
  match JS.truthy x with
  | Some v => v
  | None => fallback
  end.

Definition parseAttachments (atts : list EmailAttachment) : list EmailAttachment :=
  List.map (fun att =>
    mkEmailAttachment (or_else (Some (filename att)) "unnamed")
      (contentType att) (size att) (content att)) atts.

Definition parseMimeToEmailMessage (w : World) (parsed : ParsedMail)
    (rawEmail gmailMessageId : string) (gmailData : GmailMessage) : EmailMessage :=
  let labels := labelIds gmailData in
  mkEmailMessage
    (or_else (p_messageId parsed) gmailMessageId)
    (or_else (p_subject parsed) "(no subject)")
    (or_else (option_map fst (p_from parsed)) "")
    (or_else (option_map snd (p_from parsed)) "")
    (p_to parsed) (p_cc parsed) (p_bcc parsed)
    (match p_date parsed with Some d => d | None => now w end)
    (or_else (p_text parsed) "")
    (negb (Nat.eqb (length (p_attachments parsed)) 0))
    (parseAttachments (p_attachments parsed))
    (p_inReplyTo parsed)
    (p_references parsed)
    (determineFolder labels)
    (List.filter (fun l => negb (includes ["UNREAD"; "STARRED"; "INBOX"; "SENT"] l)) labels)
    (negb (includes labels "UNREAD"))
    (includes labels "STARRED")
    rawEmail
    (Z.of_nat (String.length rawEmail)).

(** [fetchFullMessage] never rejects: a record without raw content, a
    failing [get] and a failing parse all end in [null]. *)
Definition fetchFullMessage (w : World) (messageId : string) : M (option EmailMessage) :=
  try_catch
    (let* response :=
       match gmail_get w messageId with
       | Ok data => ret data
       | Throw e => throw e
       end in
     match JS.truthy (raw response) with
     | None =>
         let* _ := logger "gmail-adapter" LogWarn "Message has no raw content" messageId in
         ret None
     | Some rawEmail =>
         let* parsed :=
           match simpleParser w rawEmail with
           | Ok p => ret p
           | Throw e => throw e
           end in
         ret (Some (parseMimeToEmailMessage w parsed rawEmail messageId response))
     end)
    (fun error =>
     let* _ := logger "gmail-adapter" LogError "Failed to fetch full message" messageId in
     ret None).

(** [messages.filter((msg) => msg !== null)] *)
Definition non_null {A} (l : list (option A)) : list A :=
  flat_map (fun x => match x with Some a => [a] | None => [] end) l.

Fixpoint promise_all {A B} (f : A -> M B) (xs : list A) : M (list B) :=
  match xs with
  | [] => ret []
  | x :: xs' =>
      let* y := f x in
      let* ys := promise_all f xs' in
      ret (y :: ys)
  end.

(** [options.maxMessages || 100] *)
Definition maxResults (options : SyncOptions) : Z :=
  match maxMessages options with
  | Some n => if n =? 0 then 100 else n
  | None => 100
  end.

Definition fetchMessages (w : World) (accountId : string) (options : SyncOptions)
    : M (list EmailMessage) :=
  try_catch
    (let query := buildQuery options in
     let* messageIds :=
       match gmail_list w query (maxResults options) with
       | Ok ids => ret ids
       | Throw e => throw e
       end in
     match messageIds with
     | [] => ret []
     | _ =>
         (* Fetch full message details in parallel *)
         let* messages := promise_all (fetchFullMessage w) messageIds in
         ret (non_null messages)
     end)
    (fun error =>
     let* _ := logger "gmail-adapter" LogError "Failed to fetch Gmail messages" accountId in
     throw error).

End GmailAdapter.

(** ** account.service.ts *)
Module AccountService.

Definition getAccountById (accountId : string) : M (option Db.AccountRow) :=
  db_read (Sql.select_account accountId).

Definition updateAccountStatus (accountId : string) (status : AccountStatus)
    (error : option string) : M unit :=
  db_update (Sql.update_account_status accountId status (JS.truthy error)).

(** [updateSyncCursor(accountId, cursor)]: [lastSyncAt] defaults to
    [new Date()]. *)
Definition updateSyncCursor (w : World) (accountId : string) (cursor : Timestamp) : M unit :=
  db_update (Sql.update_sync_cursor accountId cursor (now w)).

End AccountService.

(** ** The [Date] arithmetic of ECMAScript used by the orchestrator *)
Module JSDate.

Definition msPerDay : Z := 86400000.

Definition Day (t : Z) : Z := t / msPerDay.
Definition TimeWithinDay (t : Z) : Z := t mod msPerDay.
Definition LocalTime (w : World) (t : Z) : Z := t + LocalTZA w t true.
Definition UTC (w : World) (t : Z) : Z := t - LocalTZA w t false.

(** The day of the month, from 1, of a day counted from the epoch, in the
    proleptic Gregorian calendar: the count is taken from 0000-03-01 and
    split into eras of 400 years, years and days of the year. *)
Definition day_of_month (day : Z) : Z :=
  let z := day + 719468 in
  let era := z / 146097 in
  let doe := z - era * 146097 in
  let yoe := (doe - doe / 1460 + doe / 36524 - doe / 146096) / 365 in
  let doy := doe - (365 * yoe + yoe / 4 - yoe / 100) in
  let mp := (5 * doy + 2) / 153 in
  doy - (153 * mp + 2) / 5 + 1.

(** The first day of the month that a day falls in. *)
Definition month_start (day : Z) : Z := day - (day_of_month day - 1).

(** [DateFromTime(t)] *)
Definition DateFromTime (t : Z) : Z := day_of_month (Day t).

(** [MakeDay(YearFromTime(t), MonthFromTime(t), dt)]: the day number of day
    [dt] of the month that [t] falls in, [dt] being any integer. *)
Definition MakeDay_in_month_of (t dt : Z) : Z := month_start (Day t) + dt - 1.

Definition MakeDate (day time : Z) : Z := day * msPerDay + time.

Definition getDate (w : World) (d : Timestamp) : Z := DateFromTime (LocalTime w d).

Definition setDate (w : World) (d : Timestamp) (dt : Z) : Timestamp :=
  let t := LocalTime w d in
  UTC w (MakeDate (MakeDay_in_month_of t dt) (TimeWithinDay t)).

End JSDate.

(** ** sync.service.ts *)
Module SyncService.

Record SyncResult : Type := mkSyncResult {
  success : bool;
  messagesSynced : Z;
  error : option string;
}.

Record Options : Type := mkOptions {
  opt_sinceDate : option Timestamp;
  opt_maxMessages : option Z;
}.

Definition no_options : Options := mkOptions None None.

(** Only the Gmail adapter exists. *)
Definition createAdapter (account : Db.AccountRow) : M unit :=
  match Db.acc_provider account with
  | gmail => ret tt
  | _ => throw (mkError OtherError "Unsupported provider")
  end.

Definition getLastSyncDate (w : World) (account : Db.AccountRow) : Timestamp :=
  match Db.acc_last_sync_at account with
  | Some lastSyncAt => lastSyncAt
  | None =>
      (* Default to 30 days ago for first sync *)
      let date := now w in
      JSDate.setDate w date (JSDate.getDate w date - 30)
  end.

(** [options?.sinceDate || this.getLastSyncDate(account)] *)
Definition sync_start (w : World) (options : Options) (account : Db.AccountRow) : Timestamp :=
  match opt_sinceDate options with
  | Some d => d
  | None => getLastSyncDate w account
  end.

Definition createSyncJob (w : World) (accountId : string) : M nat :=
  db_returning (Sql.insert_running_sync_job accountId (now w)).

Definition completeSyncJob (w : World) (syncJobId : nat) (messagesSynced : Z) : M unit :=
  db_update (Sql.update_sync_job_completed messagesSynced syncJobId (now w)).

Definition failSyncJob (w : World) (syncJobId : nat) (errorMessage : string) : M unit :=
  db_update (Sql.update_sync_job_failed errorMessage syncJobId (now w)).

(** The body of the loop over the fetched messages: a message whose store
    or whose index job fails is logged and skipped. *)
Definition store_one (w : World) (accountId : string) (message : EmailMessage)
    (messagesSynced : Z) : M Z :=
  try_catch
    (let* storedMessage := MessageService.storeMessage w accountId message in
     (* Queue for indexing *)
     let* _ := Queues.addIndexJob w (Db.msg_id storedMessage) in
     ret (messagesSynced + 1))
    (fun error =>
     let* _ := logger "sync-service" LogError "Failed to store message" (messageId message) in
     (* Continue with other messages *)
     ret messagesSynced).

(** The first statements: read the account and check that it is active.
    [None] is the early return for an account that is not. *)
Definition check_active (accountId : string) : M (option Db.AccountRow) :=
  let* account := AccountService.getAccountById accountId in
  match account with
  | None => throw (mkError OtherError "Account not found")
  | Some account =>
      if negb (AccountStatus_eqb (Db.acc_status account) active)
      then
        let* _ := logger "sync-service" LogWarn "Account is not active" accountId in
        ret None
      else ret (Some account)
  end.

(** Update status to syncing *)
Definition mark_syncing (accountId : string) : M unit :=
  AccountService.updateAccountStatus accountId syncing None.

(** From the credentials to the test of the connection; the result is the
    start of the fetch window. *)
Definition connect (w : World) (accountId : string) (options : Options)
    (account : Db.AccountRow) : M Timestamp :=
  (* Get credentials from Vault *)
  let* credentials := VaultService.getAccountCredentials w accountId in
  match credentials with
  | None => throw (mkError AuthError "Credentials not found for account")
  | Some credentials =>
      (* Create adapter based on provider *)
      let* _ := createAdapter account in
      (* Test connection *)
      let* connected := GmailAdapter.testConnection w accountId in
      if negb connected
      then throw (mkError
                    (match gmail_getProfile w with
                     | Some cause => err_kind cause
                     | None => OtherError
                     end)
                    "Failed to connect to mail provider")
      else ret (sync_start w options account)
  end.

(** [{ sinceDate, maxMessages: options?.maxMessages || 100 }] *)
Definition fetch_options (options : Options) (sinceDate : Timestamp)
    : GmailAdapter.SyncOptions :=
  GmailAdapter.mkSyncOptions (Some sinceDate) None
    (Some (match opt_maxMessages options with
           | Some n => if n =? 0 then 100 else n
           | None => 100
           end)).

(** The inner [try] block: fetch, store, complete the job, move the cursor. *)
Definition run_job (w : World) (accountId : string) (options : Options)
    (sinceDate : Timestamp) (syncJobId : nat) : M SyncResult :=
  try_catch
    (let* messages :=
       GmailAdapter.fetchMessages w accountId (fetch_options options sinceDate) in
     (* Store messages *)
     let* messagesSynced := for_each messages 0 (store_one w accountId) in
     (* Update sync job status *)
     let* _ := completeSyncJob w syncJobId messagesSynced in
     (* Update account sync cursor and timestamp *)
     let* _ := AccountService.updateSyncCursor w accountId (now w) in
     let* _ := AccountService.updateAccountStatus accountId active None in
     ret (mkSyncResult true messagesSynced None))
    (fun error =>
     let* _ := failSyncJob w syncJobId (err_message error) in
     throw error).

(** The outer [catch] block.  The statements after the loop do not reject
    in the model, so an error arrives here with [messagesSynced] still 0. *)
Definition on_failure (accountId : string) (error : Error) : M SyncResult :=
  let errorMessage := err_message error in
  let* _ := logger "sync-service" LogError "Account sync failed" accountId in
  (* Update account status *)
  let* _ := AccountService.updateAccountStatus accountId auth_failed (Some errorMessage) in
  ret (mkSyncResult false 0 (Some errorMessage)).

(** The outer [try] block. *)
Definition sync_body (w : World) (accountId : string) (options : Options)
    : M SyncResult :=
  let* account := check_active accountId in
  match account with
  | None => ret (mkSyncResult false 0 (Some "Account not active"))
  | Some account =>
      let* _ := mark_syncing accountId in
      let* sinceDate := connect w accountId options account in
      (* Create sync job record *)
      let* syncJobId := createSyncJob w accountId in
      run_job w accountId options sinceDate syncJobId
  end.

Definition syncAccount (w : World) (accountId : string) (options : Options)
    : M SyncResult :=
  try_catch (sync_body w accountId options) (on_failure accountId).

End SyncService.

(** ** The Bull queues as the workers use them

    [queue.process(concurrency, handler)] runs the handler on a job; when the
    handler rejects, the job is tried again after the backoff delay until
    [attempts] attempts were made, and then fails.  The environment may
    differ from one attempt to the next. *)
Module Bull.

Inductive Fate (A : Type) : Type :=
  | JobCompleted (result : A) (attemptsMade : nat)
  | JobFailed (reason : Error) (attemptsMade : nat).
Arguments JobCompleted {A} result attemptsMade.
Arguments JobFailed {A} reason attemptsMade.

Fixpoint attempt {A} (handler : World -> M A) (env : nat -> World)
    (attemptsMade remaining : nat) (last : Error) (s : State) : Fate A * State :=
  match remaining with
  | O => (JobFailed last attemptsMade, s)
  | S remaining' =>
      match handler (env attemptsMade) s with
      | (Ok result, s') => (JobCompleted result (S attemptsMade), s')
      | (Throw e, s') => attempt handler env (S attemptsMade) remaining' e s'
      end
  end.

Definition process {A} (options : Queues.JobOptions) (handler : World -> M A)
    (env : nat -> World) (s : State) : Fate A * State :=
  attempt handler env 0 (Queues.attempts options) (mkError OtherError "no attempt") s.

End Bull.

(** ** workers/sync-worker.ts and workers/index-worker.ts *)
Module Workers.

(** The handler of [syncQueue.process]. *)
Definition sync_handler (accountId : string) (options : SyncService.Options)
    (w : World) : M SyncService.SyncResult :=
  try_catch
    (let* result := SyncService.syncAccount w accountId options in
     if negb (SyncService.success result)
     then throw (mkError OtherError
                   (GmailAdapter.or_else (SyncService.error result) "Sync failed"))
     else ret result)
    (fun error =>
     let* _ := logger "sync-worker" LogError "Sync job failed" accountId in
     throw error (* Will trigger retry *)).

(** [searchService.indexMessage]: an upsert keyed by the message uuid. *)
Definition indexMessage (w : World) (document : IndexedMessage) : M unit :=
  try_catch
    (let* _ := external (es_index w (ix_message_uuid document)) in
     modify (fun s => with_search_index s
                        (<[ix_message_uuid document := document]> (search_index s))))
    (fun error =>
     let* _ := logger "search" LogError "Failed to index message"
                 (ix_message_uuid document) in
     throw error).

(** The handler of [indexQueue.process]. *)
Definition index_handler (messageId : string) (w : World) : M bool :=
  try_catch
    (let* message := MessageService.getMessageById messageId in
     match message with
     | None => throw (mkError OtherError "Message not found")
     | Some message =>
         (* Get raw email from S3 to extract full body text *)
         let* rawEmail := StorageService.getMessage w (Db.msg_s3_key message) in
         let* parsed :=
           match simpleParser w rawEmail with
           | Ok p => ret p
           | Throw e => throw e
           end in
         (* Get attachments *)
         let* attachments := MessageService.getMessageAttachments messageId in
         (* Index in Elasticsearch *)
         let* _ := indexMessage w
           (mkIndexedMessage (Db.msg_id message) (Db.msg_account_id message)
              (Db.msg_message_id message) (Db.msg_subject message)
              (Db.msg_from_email message) (Db.msg_from_name message)
              (Db.msg_to_emails message) (Db.msg_date message)
              (GmailAdapter.or_else (p_text parsed) "")
              (Db.msg_folder message) (Db.msg_labels message)
              (Db.msg_has_attachments message)
              (List.map Db.att_filename attachments)
              (Db.msg_is_read message) (Db.msg_is_starred message)) in
         ret true
     end)
    (fun error =>
     let* _ := logger "index-worker" LogError "Index job failed" messageId in
     throw error (* Will trigger retry *)).

(** One sync job and one index job as their queues run them, with the
    [defaultJobOptions] of the queues. *)
Definition process_sync_job (accountId : string) (options : SyncService.Options)
    (env : nat -> World) : State -> Bull.Fate SyncService.SyncResult * State :=
  Bull.process Queues.defaultJobOptions (sync_handler accountId options) env.

Definition process_index_job (messageId : string) (env : nat -> World)
    : State -> Bull.Fate bool * State :=
  Bull.process Queues.defaultJobOptions (index_handler messageId) env.

End Workers.

(** ** Two workers on one process

    The workers are [async] handlers on one event loop: between two [await]s
    a handler runs alone, and at an [await] the other handler may run.  A
    schedule says, step by step, which of the two workers runs its next
    stretch of statements. *)
Module Interleaving.
Section TwoWorkers.
Context {Pc St : Type}.
Variables stepA stepB : Pc -> St -> Pc * St.

Record Config : Type := mkConfig {
  pcA : Pc;
  pcB : Pc;
  shared : St;
}.

Inductive Worker : Type := A | B.

Definition step (who : Worker) (c : Config) : Config :=
  match who with
  | A => let '(pc, s) := stepA (pcA c) (shared c) in mkConfig pc (pcB c) s
  | B => let '(pc, s) := stepB (pcB c) (shared c) in mkConfig (pcA c) pc s
  end.

Definition run (schedule : list Worker) (c : Config) : Config :=
  fold_left (fun c who => step who c) schedule c.

(** The configurations a schedule goes through, the first one included. *)
Fixpoint trace (schedule : list Worker) (c : Config) : list Config :=
  match schedule with
  | [] => [c]
  | who :: rest => c :: trace rest (step who c)
  end.

End TwoWorkers.
Arguments Config : clear implicits.
Arguments mkConfig {Pc St} pcA pcB shared.
End Interleaving.

(** *** Two [syncAccount] calls *)
Module SyncRace.
Import SyncService.

(** Where a call stands: each constructor is an [await] at which the call
    has handed control back. *)
Inductive Pc : Type :=
  | Start
  | Checked (account : Db.AccountRow)            (* after [getAccountById] and the status check *)
  | Syncing (account : Db.AccountRow)            (* after [updateAccountStatus(.., 'syncing')] *)
  | Prepared (sinceDate : Timestamp)             (* after [testConnection] *)
  | JobCreated (sinceDate : Timestamp) (syncJobId : nat)   (* after [createSyncJob] *)
  | Finished (result : Res SyncResult).

(** A stretch of the [try] block: its value moves the call on, its error
    runs the outer [catch] block. *)
Definition stretch {T} (accountId : string) (m : M T) (next : T -> Pc) (s : State)
    : Pc * State :=
  match m s with
  | (Ok x, s') => (next x, s')
  | (Throw e, s') =>
      let '(r, s'') := on_failure accountId e s' in (Finished r, s'')
  end.

Definition step (w : World) (accountId : string) (options : Options)
    (pc : Pc) (s : State) : Pc * State :=
  match pc with
  | Start =>
      stretch accountId (check_active accountId)
        (fun account =>
           match account with
           | Some account => Checked account
           | None => Finished (Ok (mkSyncResult false 0 (Some "Account not active")))
           end) s
  | Checked account =>
      stretch accountId (mark_syncing accountId) (fun _ => Syncing account) s
  | Syncing account =>
      stretch accountId (connect w accountId options account) Prepared s
  | Prepared sinceDate =>
      stretch accountId (createSyncJob w accountId) (JobCreated sinceDate) s
  | JobCreated sinceDate syncJobId =>
      stretch accountId (run_job w accountId options sinceDate syncJobId)
        (fun r => Finished (Ok r)) s
  | Finished r => (Finished r, s)
  end.

(** The jobs of an account that are in state ['running']. *)
Definition running_jobs (accountId : string) (s : State) : list Db.SyncJobRow :=
  List.filter
    (fun j => String.eqb (Db.job_account_id j) accountId
              && SyncJobStatus_eqb (Db.job_status j) running)
    (Db.sync_jobs (db s)).

(** Both workers run [syncAccount] for the same account. *)
Definition start (s : State) : Interleaving.Config Pc State :=
  Interleaving.mkConfig Start Start s.

Definition trace (wA wB : World) (accountId : string) (options : Options)
    (schedule : list Interleaving.Worker) (s : State)
    : list (Interleaving.Config Pc State) :=
  Interleaving.trace (step wA accountId options) (step wB accountId options)
    schedule (start s).

(** The statement of the serialization invariant: whatever the schedule, no
    configuration has two running jobs of the account. *)
Definition serialized (wA wB : World) (accountId : string) (options : Options)
    (s : State) : Prop :=
  forall schedule c,
    In c (trace wA wB accountId options schedule s) ->
    (length (running_jobs accountId (Interleaving.shared c)) <= 1)%nat.

(** A worker is between its status check and its update of the status. *)
Definition in_window (pc : Pc) : bool :=
  match pc with Checked _ => true | _ => false end.

Definition at_start (pc : Pc) : bool :=
  match pc with Start => true | _ => false end.

(** A schedule under which no call performs its status check while the
    other call is between its own check and its update. *)
Fixpoint check_apart (wA wB : World) (accountId : string) (options : Options)
    (schedule : list Interleaving.Worker) (c : Interleaving.Config Pc State) : bool :=
  match schedule with
  | [] => true
  | who :: rest =>
      negb (match who with
            | Interleaving.A => at_start (Interleaving.pcA c) && in_window (Interleaving.pcB c)
            | Interleaving.B => at_start (Interleaving.pcB c) && in_window (Interleaving.pcA c)
            end)
      && check_apart wA wB accountId options rest
           (Interleaving.step (step wA accountId options) (step wB accountId options) who c)
  end.

End SyncRace.

(** *** Two adapters whose access token has expired

    Every [syncAccount] call builds its own [GmailAdapter], hence its own
    OAuth client; a client that finds its access token expired asks the
    provider for new tokens and emits ['tokens'], on which the listener of
    the adapter writes them to the vault. *)
Module RefreshRace.

(** The shared state: the platform, the number of token requests the
    provider has answered, and the credentials written to the vault for the
    account, oldest first. *)
Record Shared : Type := mkShared {
  platform : State;
  refreshes : nat;
  persisted : list AccountCredentials;
}.

Inductive Pc : Type :=
  | Expired                                           (* the client holds an expired token *)
  | Refreshed (tokens : GmailAdapter.Tokens)  (* the provider answered; ['tokens'] is emitted *)
  | Read (tokens : OAuthTokens) (credentials : AccountCredentials)
                                                      (* [updateOAuthTokens] after its read *)
  | Done (outcome : Res unit).

(** The [catch] block of [updateOAuthTokens]. *)
Definition rejected (accountId : string) (e : Error) (s : State) (sh : Shared)
    : Pc * Shared :=
  let '(_, s') := logger "vault" LogError "Failed to update OAuth tokens" accountId s in
  (Done (Throw e), mkShared s' (refreshes sh) (persisted sh)).

(** [token_endpoint n] is the provider's answer to its n-th token request. *)
Definition step (w : World) (token_endpoint : nat -> GmailAdapter.Tokens)
    (accountId : string) (pc : Pc) (sh : Shared) : Pc * Shared :=
  match pc with
  | Expired =>
      (Refreshed (token_endpoint (refreshes sh)),
       mkShared (platform sh) (S (refreshes sh)) (persisted sh))
  | Refreshed tokens =>
      match JS.truthy (GmailAdapter.tok_refresh_token tokens) with
      | None => (Done (Ok tt), sh)
      | Some refresh =>
          let oauth := mkOAuthTokens (GmailAdapter.tok_access_token tokens) refresh
                         (GmailAdapter.tok_expiry_date tokens) in
          match VaultService.getAccountCredentials w accountId (platform sh) with
          | (Ok (Some credentials), s') =>
              (Read oauth credentials, mkShared s' (refreshes sh) (persisted sh))
          | (Ok None, s') =>
              rejected accountId (mkError AuthError "Account credentials not found") s' sh
          | (Throw e, s') => rejected accountId e s' sh
          end
      end
  | Read oauth credentials =>
      let updated := VaultService.set_oauth credentials oauth in
      match VaultService.storeAccountCredentials w accountId updated (platform sh) with
      | (Ok _, s') =>
          (Done (Ok tt), mkShared s' (refreshes sh) (persisted sh ++ [updated]))
      | (Throw e, s') => rejected accountId e s' sh
      end
  | Done outcome => (Done outcome, sh)
  end.

Definition start (s : State) : Interleaving.Config Pc Shared :=
  Interleaving.mkConfig Expired Expired (mkShared s 0 []).

Definition run (w : World) (token_endpoint : nat -> GmailAdapter.Tokens)
    (accountId : string) (schedule : list Interleaving.Worker) (s : State)
    : Interleaving.Config Pc Shared :=
  Interleaving.run (step w token_endpoint accountId) (step w token_endpoint accountId)
    schedule (start s).

Definition is_done (pc : Pc) : bool :=
  match pc with Done _ => true | _ => false end.

Definition finished (c : Interleaving.Config Pc Shared) : bool :=
  is_done (Interleaving.pcA c) && is_done (Interleaving.pcB c).

(** The statement of credential race safety: however the two workers are
    scheduled, once both are through there was one refresh, and one set of
    credentials was written. *)
Definition race_safe (w : World) (token_endpoint : nat -> GmailAdapter.Tokens)
    (accountId : string) (s : State) : Prop :=
  forall schedule,
    let c := run w token_endpoint accountId schedule s in
    finished c = true ->
    refreshes (Interleaving.shared c) = 1%nat
    /\ length (persisted (Interleaving.shared c)) = 1%nat.

End RefreshRace.

(** ** A small program logic for [M]

    [moves R m]: whatever [m] does, resolve or reject, it takes a state [s]
    to a state related to [s] by [R].  With [R] a preorder the rule for
    sequencing is the transitivity of [R]. *)
Definition moves {A} (R : State -> State -> Prop) (m : M A) : Prop :=
  forall s, R s (snd (m s)).

(** [keeps f]: the part [f] of the state is left as it was. *)
Definition keeps {X} (f : State -> X) (s s' : State) : Prop := f s' = f s.

(** [stable P]: once [P] holds it goes on holding. *)
Definition stable (P : State -> Prop) (s s' : State) : Prop := P s -> P s'.


(** ** Statements about the message store *)

(** The dedup key of a stored message. *)
Definition dedup_key (m : Db.MessageRow) : string * string :=
  (Db.msg_account_id m, Db.msg_message_id m).

(** No two stored messages share their dedup key. *)
Definition dedup_key_unique (s : State) : Prop :=
  NoDup (List.map dedup_key (Db.messages (db s))).

(** A call of [storeMessage], with the environment it runs in. *)
Record StoreCall : Type := mkStoreCall {
  call_world : World;
  call_accountId : string;
  call_message : EmailMessage;
}.

(** The state after a sequence of [storeMessage] calls, whatever each call
    returned. *)
Definition store_all (calls : list StoreCall) (s : State) : State :=
  fold_left
    (fun s c =>
       snd (MessageService.storeMessage (call_world c) (call_accountId c) (call_message c) s))
    calls s.

(** Nothing that is stored differs between two states: the database, the
    blob store, the vault, the queue, the search index and the log. *)
Definition same_stores (s s' : State) : Prop :=
  db s' = db s /\ s3 s' = s3 s /\ vault s' = vault s
  /\ index_queue s' = index_queue s /\ search_index s' = search_index s
  /\ log s' = log s.


(** ** Concrete scenarios

    One Gmail account, a provider that lists the records it is given, and a
    parser that is given per scenario.  The raw content of the record [g] is
    the text [g] itself. *)
Module Scenario.

Definition account : string := "acct-1".

Definition mail (id subject : string) (reply : option string) (date : Timestamp)
    : ParsedMail :=
  mkParsedMail (Some id) (Some subject) (Some ("alice@example.com", "Alice"))
    ["bob@example.com"] [] [] (Some date) (Some "hello") [] reply [].

Definition world (records : Res (list string)) (parse : string -> Res ParsedMail)
    (queue search : string -> option Error) : World :=
  mkWorld 1700000000000 (fun _ _ => 0)
    (fun n => String (ascii_of_nat (97 + n)) "")
    None
    (fun _ _ => records)
    (fun id => Ok (mkGmailMessage (Some id) ["INBOX"; "UNREAD"]))
    parse
    (fun _ => None) (fun _ => None)
    (fun accountId messageId _ => "messages/" +:+ accountId +:+ "/" +:+ messageId)
    (fun accountId messageId attachmentId _ =>
       "attachments/" +:+ accountId +:+ "/" +:+ messageId +:+ "/" +:+ attachmentId)
    (fun content => content)
    None queue search.

Definition up : string -> option Error := fun _ => None.

Definition credentials : AccountCredentials :=
  mkAccountCredentials gmail "alice@example.com"
    (Some (mkOAuthTokens "access-0" "refresh-0" 1699990000000)) None None.

(** The account exists, is active and has never been synced; nothing is
    stored yet. *)
Definition fresh : State :=
  mkState
    (Db.mkDb [Db.mkAccountRow account gmail "alice@example.com" active None None None]
       [] [] [] [] 0)
    ∅ {[ account := credentials ]} [] ∅ [] 0.

(** Scenario A: the fetch returns [A], [B] in reply to [A], and [C]. *)
Definition parse_A (raw : string) : Res ParsedMail :=
  if String.eqb raw "gB"
  then Ok (mail "<b@mail>" "Quarterly figures" (Some "<a@mail>") 1699990002000)
  else if String.eqb raw "gC"
  then Ok (mail "<c@mail>" "Lunch" None 1699990003000)
  else Ok (mail "<a@mail>" "Plan" None 1699990001000).

Definition world_A : World := world (Ok ["gA"; "gB"; "gC"]) parse_A up up.

(** Scenario B: five records, the third of which does not parse. *)
Definition parse_B (raw : string) : Res ParsedMail :=
  if String.eqb raw "g3"
  then Throw (mkError OtherError "malformed message")
  else Ok (mail ("<" +:+ raw +:+ "@mail>") ("Report " +:+ raw) None 1699990000000).

Definition world_B : World :=
  world (Ok ["g1"; "g2"; "g3"; "g4"; "g5"]) parse_B up up.

(** The message of the record [g1] as the adapter normalises it. *)
Definition message_1 : EmailMessage :=
  GmailAdapter.parseMimeToEmailMessage world_B
    (mail "<g1@mail>" "Report g1" None 1699990000000) "g1" "g1"
    (mkGmailMessage (Some "g1") ["INBOX"; "UNREAD"]).

End Scenario.

(** ** Statements about thread resolution *)





(** The threads have pairwise distinct normalized subjects. *)
Definition subjects_distinct (s : State) : Prop :=
  NoDup (List.map Db.thr_subject_normalized (Db.threads (db s))).

(** The thread that [findOrCreateThread] creates for a message. *)
Definition new_thread (id : string) (emailMessage : EmailMessage) : Db.ThreadRow :=
  Db.mkThreadRow id (MessageService.normalizeSubject (subject emailMessage))
    (date emailMessage) (date emailMessage) 1
    (Sql.distinct []
       (fromEmail emailMessage :: (toEmails emailMessage ++ ccEmails emailMessage)%list)).

Module ScenarioThreads.

(** Two stores of messages with the subject [Plan], for two accounts, run
    interleaved: both look for a thread with the normalized subject before
    either has created one, so both create one. *)
Definition first : EmailMessage :=
  GmailAdapter.parseMimeToEmailMessage Scenario.world_B
    (Scenario.mail "<p1@mail>" "Plan" None 1699990001000) "p1" "p1"
    (mkGmailMessage (Some "p1") ["INBOX"]).

Definition second : EmailMessage :=
  GmailAdapter.parseMimeToEmailMessage Scenario.world_B
    (Scenario.mail "<p2@mail>" "Re: Plan" None 1699990002000) "p2" "p2"
    (mkGmailMessage (Some "p2") ["INBOX"]).

Definition interleaved : option Db.t :=
  let d0 := db Scenario.fresh in
  match Sql.select_thread_by_subject "plan" d0,
        Sql.select_thread_by_subject "plan" d0 with
  | None, None =>
      match Sql.insert_thread (new_thread "t1" first) d0 with
      | Ok d1 =>
          match Sql.insert_thread (new_thread "t2" second) d1 with
          | Ok d2 =>
              match Sql.insert_message
                      (MessageService.message_row "m1" Scenario.account first "t1" "k1") d2 with
              | Ok d3 =>
                  match Sql.insert_message
                          (MessageService.message_row "m2" Scenario.account second "t2" "k2")
                          d3 with
                  | Ok d4 => Some d4
                  | Throw _ => None
                  end
              | Throw _ => None
              end
          | Throw _ => None
          end
      | Throw _ => None
      end
  | _, _ => None
  end.

Definition two_threads : State :=
  with_db Scenario.fresh
    (match interleaved with Some d => d | None => db Scenario.fresh end).


End ScenarioThreads.

(** ** Statements about fetching and syncing *)

(** What [fetchFullMessage] resolves with for a record: the normalised
    message, or [null] for a record that cannot be fetched, has no raw
    content or does not parse. *)
Definition record (w : World) (messageId : string) : option EmailMessage :=
  match gmail_get w messageId with
  | Ok data =>
      match JS.truthy (raw data) with
      | Some rawEmail =>
          match simpleParser w rawEmail with
          | Ok parsed =>
              Some (GmailAdapter.parseMimeToEmailMessage w parsed rawEmail messageId data)
          | Throw _ => None
          end
      | None => None
      end
  | Throw _ => None
  end.

Definition malformed (w : World) (messageId : string) : bool :=
  match record w messageId with Some _ => false | None => true end.

(** The line that the adapter logs for a record it skips. *)
Definition skipped_entry (w : World) (messageId : string) : LogEntry :=
  match gmail_get w messageId with
  | Ok data =>
      match JS.truthy (raw data) with
      | Some _ =>
          mkLogEntry "gmail-adapter" LogError "Failed to fetch full message" messageId
      | None =>
          mkLogEntry "gmail-adapter" LogWarn "Message has no raw content" messageId
      end
  | Throw _ =>
      mkLogEntry "gmail-adapter" LogError "Failed to fetch full message" messageId
  end.

Definition fetch_log (w : World) (messageIds : list string) : list LogEntry :=
  flat_map (fun id => if malformed w id then [skipped_entry w id] else []) messageIds.


Definition account_status (accountId : string) (s : State) : option AccountStatus :=
  option_map Db.acc_status (Sql.select_account accountId (db s)).

Definition account_last_sync_error (accountId : string) (s : State) : option string :=
  match Sql.select_account accountId (db s) with
  | Some a => Db.acc_last_sync_error a
  | None => None
  end.

(** The identifiers in [sync_jobs] were generated by the database. *)
Definition sync_jobs_generated (s : State) : Prop :=
  forall j, In j (Db.sync_jobs (db s)) -> (Db.job_id j < Db.uuid_generated (db s))%nat.

(** A fetched message is accounted for: it is stored under its dedup key,
    or the orchestrator logged that it skipped it. *)
Definition stored (accountId : string) (m : EmailMessage) (s : State) : Prop :=
  exists row, In row (Db.messages (db s)) /\ dedup_key row = (accountId, messageId m).

Definition skipped (m : EmailMessage) (s : State) : Prop :=
  In (mkLogEntry "sync-service" LogError "Failed to store message" (messageId m)) (log s).

(** The messages and the log only grow. *)
Definition grows (s s' : State) : Prop :=
  (forall row, In row (Db.messages (db s)) -> In row (Db.messages (db s')))
  /\ (forall e, In e (log s) -> In e (log s')).

(** The account can be synced: it is an active Gmail account whose
    credentials are in the vault, the vault and the provider answer. *)
Definition syncable (w : World) (accountId : string) (s : State) : Prop :=
  (exists a, Sql.select_account accountId (db s) = Some a
             /\ Db.acc_status a = active /\ Db.acc_provider a = gmail)
  /\ vault_outage w = None
  /\ (exists c, vault s !! accountId = Some c)
  /\ gmail_getProfile w = None.

(** The start of the fetch window of a call. *)
Definition window_start (w : World) (accountId : string) (options : SyncService.Options)
    (s : State) : Timestamp :=
  match Sql.select_account accountId (db s) with
  | Some a => SyncService.sync_start w options a
  | None => 0
  end.

(** The environment with another search engine behaviour. *)
Definition with_es_index (w : World) (search : string -> option Error) : World :=
  mkWorld (now w) (LocalTZA w) (nanoid w) (gmail_getProfile w)
    (gmail_list w) (gmail_get w) (simpleParser w) (s3_putObject w) (s3_getObject w)
    (generateMessageKey w) (generateAttachmentKey w) (sha256_hex w)
    (vault_outage w) (queue_add w) search.

(** The claim that the outcome of exhausted retries keeps the two kinds of
    failure apart: when the first attempt fails with the error [e], the
    account ends up ['auth_failed'] if [e] is credential-related and stays
    ['active'] if not. *)
Definition failure_kinds_kept_apart (env : nat -> World) (accountId : string)
    (options : SyncService.Options) (s : State) : Prop :=
  forall e,
    fst (SyncService.sync_body (env 0%nat) accountId options s) = Throw e ->
    account_status accountId (snd (Workers.process_sync_job accountId options env s))
    = Some (if credential_related e then auth_failed else active).

Module ScenarioOutage.

(** The provider answers the connection test and then times out on the
    listing of the messages. *)
Definition timeout : Error := mkError TransientProviderError "ETIMEDOUT".

Definition world : World :=
  Scenario.world (Throw timeout) Scenario.parse_B Scenario.up Scenario.up.

(** Scenario C: the search engine cannot be reached. *)
Definition unreachable : Error := mkError IndexError "ECONNREFUSED".

Definition world_C : World :=
  with_es_index Scenario.world_A (fun _ => Some unreachable).

End ScenarioOutage.

(** What the orchestrator and the credential manager own: the accounts, the
    sync jobs with the count of generated identifiers, and the vault. *)
Definition orchestration (s : State)
    : list Db.AccountRow * list Db.SyncJobRow * nat * gmap string AccountCredentials :=
  (Db.accounts (db s), Db.sync_jobs (db s), Db.uuid_generated (db s), vault s).

(** The state in which a job that stored its messages ends: the job is
    completed, the cursor is moved, the account is active again. *)
Definition job_done (w : World) (accountId : string) (syncJobId : nat)
    (messagesSynced : Z) (s : State) : State :=
  with_db s
    (Sql.update_account_status accountId active None
       (Sql.update_sync_cursor accountId (now w) (now w)
          (Sql.update_sync_job_completed messagesSynced syncJobId (now w) (db s)))).

(** The state in which a job whose fetch was rejected ends. *)
Definition job_failed (w : World) (accountId : string) (syncJobId : nat)
    (e : Error) (s : State) : State :=
  with_db
    (with_log s
       (log s ++ [mkLogEntry "gmail-adapter" LogError "Failed to fetch Gmail messages"
                    accountId]))
    (Sql.update_sync_job_failed (err_message e) syncJobId (now w) (db s)).

(** What is durably stored and what the orchestrator owns: the database,
    the blob store, the vault and the queue of index jobs. *)
Definition storage (s : State)
    : Db.t * gmap string string * gmap string AccountCredentials * list string :=
  (db s, s3 s, vault s, index_queue s).

(** ** Statements about the refresh of credentials *)
Module RefreshFacts.
Import RefreshRace.

(** The tokens that the listener writes for an answer of the provider, when
    the answer carries a refresh token. *)
Definition oauth_of (tokens : GmailAdapter.Tokens) : option OAuthTokens :=
  option_map
    (fun refresh =>
       mkOAuthTokens (GmailAdapter.tok_access_token tokens) refresh
         (GmailAdapter.tok_expiry_date tokens))
    (JS.truthy (GmailAdapter.tok_refresh_token tokens)).

(** [o] is among the first [n] answers of the provider. *)
Definition issued (token_endpoint : nat -> GmailAdapter.Tokens) (n : nat)
    (o : OAuthTokens) : Prop :=
  exists k, (k < n)%nat /\ oauth_of (token_endpoint k) = Some o.

(** Two credentials agree on everything but the OAuth tokens. *)
Definition same_account_fields (c c0 : AccountCredentials) : Prop :=
  cred_provider c = cred_provider c0 /\ cred_email c = cred_email c0
  /\ cred_imap c = cred_imap c0 /\ cred_smtp c = cred_smtp c0.

(** Credentials of the account that carry tokens the provider issued. *)
Definition refreshed (token_endpoint : nat -> GmailAdapter.Tokens) (n : nat)
    (c0 c : AccountCredentials) : Prop :=
  same_account_fields c c0
  /\ exists o, oauth c = Some o /\ issued token_endpoint n o.

Definition past_refresh (pc : Pc) : nat :=
  match pc with Expired => 0 | _ => 1 end.

Definition wrote (pc : Pc) : nat :=
  match pc with Done (Ok _) => 1 | _ => 0 end.

(** What holds of a worker wherever it stands, given that the vault
    answers, that it holds credentials [c0] for the account at the start and
    that every answer of the provider carries a refresh token. *)
Definition pc_ok (token_endpoint : nat -> GmailAdapter.Tokens) (n : nat)
    (c0 : AccountCredentials) (pc : Pc) : Prop :=
  match pc with
  | Expired => True
  | Refreshed tokens => exists o, issued token_endpoint n o /\ oauth_of tokens = Some o
  | Read o credentials =>
      issued token_endpoint n o /\ same_account_fields credentials c0
  | Done (Ok _) => True
  | Done (Throw _) => False
  end.

Definition invariant (token_endpoint : nat -> GmailAdapter.Tokens)
    (accountId : string) (c0 : AccountCredentials)
    (c : Interleaving.Config Pc Shared) : Prop :=
  let sh := Interleaving.shared c in
  pc_ok token_endpoint (refreshes sh) c0 (Interleaving.pcA c)
  /\ pc_ok token_endpoint (refreshes sh) c0 (Interleaving.pcB c)
  /\ refreshes sh = (past_refresh (Interleaving.pcA c) + past_refresh (Interleaving.pcB c))%nat
  /\ length (persisted sh) = (wrote (Interleaving.pcA c) + wrote (Interleaving.pcB c))%nat
  /\ Forall (refreshed token_endpoint (refreshes sh) c0) (persisted sh)
  /\ exists current,
       vault (platform sh) !! accountId = Some current
       /\ same_account_fields current c0
       /\ (persisted sh = [] \/ last (persisted sh) = Some current).

(** The provider answers its n-th token request with the n-th pair of
    tokens; every answer supersedes the one before. *)
Definition token_endpoint (n : nat) : GmailAdapter.Tokens :=
  GmailAdapter.mkTokens
    (String (ascii_of_nat (48 + n)) "-access")
    (Some (String (ascii_of_nat (48 + n)) "-refresh"))
    (1700003600000 + Z.of_nat n).

End RefreshFacts.

(** ** Statements about overlapping syncs *)
Module SyncFacts.
Import SyncRace.

(** A call is past its update of the status and has not finished. *)
Definition inside (pc : Pc) : bool :=
  match pc with
  | Syncing _ | Prepared _ | JobCreated _ _ => true
  | _ => false
  end.

Definition critical (pc : Pc) : bool := in_window pc || inside pc.

(** The job that a call has created and not yet completed or failed. *)
Definition held (pc : Pc) : option nat :=
  match pc with
  | JobCreated _ syncJobId => Some syncJobId
  | _ => None
  end.

(** The status of the account and its running jobs, as the database has
    them. *)
Definition status_in (accountId : string) (d : Db.t) : option AccountStatus :=
  option_map Db.acc_status (Sql.select_account accountId d).

Definition running_in (accountId : string) (d : Db.t) : list Db.SyncJobRow :=
  List.filter
    (fun j => String.eqb (Db.job_account_id j) accountId
              && SyncJobStatus_eqb (Db.job_status j) running)
    (Db.sync_jobs d).

(** What holds of two calls for one account as long as neither checks the
    status inside the other's window: at most one of them is past its
    check; while one is past its update the account is ['syncing']; and the
    running jobs of the account are the job that a call holds, if any. *)
Definition invariant (accountId : string) (mine other : Pc) (s : State) : Prop :=
  critical mine && critical other = false
  /\ (inside mine || inside other = true -> account_status accountId s = Some syncing)
  /\ (in_window mine || in_window other = true -> account_status accountId s <> None)
  /\ match held mine, held other with
     | None, None => running_jobs accountId s = []
     | Some id, None | None, Some id =>
         exists j, running_jobs accountId s = [j] /\ Db.job_id j = id
     | Some _, Some _ => False
     end.

End SyncFacts.

Module ScenarioRace.

(** Worker A checks the status, worker B checks the status, and then each
    goes on to create its job. *)
Definition overlapping : list Interleaving.Worker :=
  [Interleaving.A; Interleaving.B;
   Interleaving.A; Interleaving.A; Interleaving.A;
   Interleaving.B; Interleaving.B; Interleaving.B].

(** Worker A runs its call to the end, then worker B runs its own. *)
Definition one_after_the_other : list Interleaving.Worker :=
  [Interleaving.A; Interleaving.A; Interleaving.A; Interleaving.A; Interleaving.A;
   Interleaving.B; Interleaving.B; Interleaving.B; Interleaving.B; Interleaving.B].

End ScenarioRace.
(* ===================================================================== *)
(** * Part II: properties *)
(* ===================================================================== *)

(** ** The rules of the program logic *)
Section Moves.
Variable R : State -> State -> Prop.
Hypothesis R_refl : forall s, R s s.
Hypothesis R_trans : forall s1 s2 s3, R s1 s2 -> R s2 s3 -> R s1 s3.

Lemma moves_ret {A} (a : A) : moves R (ret a).
Proof. intros s. apply R_refl. Qed.

Lemma moves_throw {A} e : moves R (@throw A e).
Proof. intros s. apply R_refl. Qed.

Lemma moves_gets {A} (f : State -> A) : moves R (gets f).
Proof. intros s. apply R_refl. Qed.

Lemma moves_db_read {A} (q : Db.t -> A) : moves R (db_read q).
Proof. intros s. apply R_refl. Qed.

Lemma moves_external failure : moves R (external failure).
Proof. destruct failure; intros s; apply R_refl. Qed.

Lemma moves_bind {A B} (m : M A) (k : A -> M B) :
  moves R m -> (forall a, moves R (k a)) -> moves R (bind m k).
Proof.
  intros Hm Hk s. unfold bind. specialize (Hm s).
  destruct (m s) as [[a|e] s1]; simpl in *.
  - eapply R_trans; [exact Hm | apply Hk].
  - exact Hm.
Qed.

Lemma moves_try_catch {A} (m : M A) (h : Error -> M A) :
  moves R m -> (forall e, moves R (h e)) -> moves R (try_catch m h).
Proof.
  intros Hm Hh s. unfold try_catch. specialize (Hm s).
  destruct (m s) as [[a|e] s1]; simpl in *.
  - exact Hm.
  - eapply R_trans; [exact Hm | apply Hh].
Qed.

Lemma moves_for_each {A B} (xs : list A) (body : A -> B -> M B) :
  (forall x acc, moves R (body x acc)) -> forall acc, moves R (for_each xs acc body).
Proof.
  intros Hbody. induction xs as [|x xs IH]; intros acc; simpl.
  - apply moves_ret.
  - apply moves_bind; [apply Hbody | intros; apply IH].
Qed.

Lemma moves_promise_all {A B} (f : A -> M B) (xs : list A) :
  (forall x, moves R (f x)) -> moves R (GmailAdapter.promise_all f xs).
Proof.
  intros Hf. induction xs as [|x xs IH]; simpl.
  - apply moves_ret.
  - apply moves_bind; [apply Hf | intros; apply moves_bind; [apply IH | intros; apply moves_ret]].
Qed.

Lemma moves_modify (f : State -> State) :
  (forall s, R s (f s)) -> moves R (modify f).
Proof. intros H s. apply H. Qed.

Lemma moves_logger c l t a :
  (forall s e, R s (with_log s (log s ++ [e]))) -> moves R (logger c l t a).
Proof. intros H s. apply H. Qed.

Lemma moves_call_nanoid w :
  (forall s n, R s (with_nanoid_calls s n)) -> moves R (call_nanoid w).
Proof. intros H s. apply H. Qed.

Lemma moves_db_exec q :
  (forall s d, q (db s) = Ok d -> R s (with_db s d)) -> moves R (db_exec q).
Proof.
  intros H s. unfold db_exec. destruct (q (db s)) eqn:E; simpl; auto.
Qed.

Lemma moves_db_returning {A} (q : Db.t -> Res (A * Db.t)) :
  (forall s a d, q (db s) = Ok (a, d) -> R s (with_db s d)) -> moves R (db_returning q).
Proof.
  intros H s. unfold db_returning. destruct (q (db s)) as [[a d]|e] eqn:E; simpl; eauto.
Qed.

Lemma moves_db_update q :
  (forall s, R s (with_db s (q (db s)))) -> moves R (db_update q).
Proof. intros H s. apply H. Qed.

End Moves.


Lemma keeps_refl {X} (f : State -> X) s : keeps f s s.
Proof. reflexivity. Qed.

Lemma keeps_trans {X} (f : State -> X) s1 s2 s3 :
  keeps f s1 s2 -> keeps f s2 s3 -> keeps f s1 s3.
Proof. unfold keeps. congruence. Qed.


Lemma stable_refl (P : State -> Prop) s : stable P s s.
Proof. intros H; exact H. Qed.

Lemma stable_trans (P : State -> Prop) s1 s2 s3 :
  stable P s1 s2 -> stable P s2 s3 -> stable P s1 s3.
Proof. unfold stable. auto. Qed.

(** Splitting a goal along the structure of a service method. *)
Ltac step_moves Rrefl Rtrans :=
  lazymatch goal with
  | |- moves _ (ret _) => apply (moves_ret _ Rrefl)
  | |- moves _ (throw _) => apply (moves_throw _ Rrefl)
  | |- moves _ (gets _) => apply (moves_gets _ Rrefl)
  | |- moves _ (db_read _) => apply (moves_db_read _ Rrefl)
  | |- moves _ (external _) => apply (moves_external _ Rrefl)
  | |- moves _ (bind _ _) => apply (moves_bind _ Rtrans); [ | intros ? ]
  | |- moves _ (try_catch _ _) => apply (moves_try_catch _ Rtrans); [ | intros ? ]
  | |- moves _ (for_each _ _ _) => apply (moves_for_each _ Rrefl Rtrans); intros ? ?
  | |- moves _ (GmailAdapter.promise_all _ _) =>
      apply (moves_promise_all _ Rrefl Rtrans); intros ?
  | |- moves _ (modify _) => apply moves_modify; intros ?
  | |- moves _ (logger _ _ _ _) => apply moves_logger; intros ? ?
  | |- moves _ (call_nanoid _) => apply moves_call_nanoid; intros ? ?
  | |- moves _ (db_update _) => apply moves_db_update; intros ?
  | |- moves _ (db_exec _) => apply (moves_db_exec _ Rrefl); intros ? ? ?
  | |- moves _ (db_returning _) => apply (moves_db_returning _ Rrefl); intros ? ? ? ?
  | |- moves _ (match ?x with _ => _ end) => destruct x
  | |- moves _ (let '(_, _) := ?x in _) => destruct x
  end.

(** ** The message store *)

Lemma insert_message_ok r d d' :
  Sql.insert_message r d = Ok d' ->
  d' = Sql.update_thread_participants r (Db.with_messages d (Db.messages d ++ [r]))
  /\ existsb (Sql.same_key (Db.msg_account_id r) (Db.msg_message_id r)) (Db.messages d) = false
  /\ existsb (fun th => String.eqb (Db.thr_id th) (Db.msg_thread_id r)) (Db.threads d) = true.
Proof.
  unfold Sql.insert_message. intros H.
  destruct (existsb _ (Db.messages d)); [discriminate|].
  destruct (existsb (Sql.same_key _ _) (Db.messages d)); [discriminate|].
  destruct (negb _); [discriminate|].
  destruct (existsb _ (Db.threads d)); simpl in H; [|discriminate].
  injection H as <-. auto.
Qed.

Lemma insert_thread_ok r d d' :
  Sql.insert_thread r d = Ok d' -> d' = Db.with_threads d (Db.threads d ++ [r]).
Proof.
  unfold Sql.insert_thread. destruct (existsb _ _); [discriminate|].
  intros H. injection H as <-. reflexivity.
Qed.

Lemma insert_attachment_ok r d d' :
  Sql.insert_attachment r d = Ok d' -> d' = Db.with_attachments d (Db.attachments d ++ [r]).
Proof.
  unfold Sql.insert_attachment. destruct (existsb _ _); [discriminate|].
  destruct (negb _); [discriminate|].
  intros H. injection H as <-. reflexivity.
Qed.

Lemma same_key_absent r msgs :
  existsb (Sql.same_key (Db.msg_account_id r) (Db.msg_message_id r)) msgs = false ->
  ~ In (dedup_key r) (List.map dedup_key msgs).
Proof.
  intros Hex Hin. apply in_map_iff in Hin as (m & Hkey & Hm).
  assert (existsb (Sql.same_key (Db.msg_account_id r) (Db.msg_message_id r)) msgs = true)
    as Habs; [|congruence].
  apply existsb_exists. exists m. split; [exact Hm|].
  unfold dedup_key in Hkey. injection Hkey as Ha Hi.
  unfold Sql.same_key. rewrite Ha, Hi, !String.eqb_refl. reflexivity.
Qed.

Lemma NoDup_snoc {A} (l : list A) (x : A) :
  NoDup l -> ~ In x l -> NoDup (l ++ [x]).
Proof.
  intros Hl Hx. apply NoDup_app. split; [exact Hl|]. split.
  - intros y Hy Hyx. apply list_elem_of_In in Hy. apply list_elem_of_In in Hyx.
    destruct Hyx as [<-|[]]. contradiction.
  - apply NoDup_singleton.
Qed.

Lemma storeMessage_stable_unique w accountId emailMessage :
  moves (stable dedup_key_unique) (MessageService.storeMessage w accountId emailMessage).
Proof.
  pose proof (stable_refl dedup_key_unique) as Rr.
  pose proof (stable_trans dedup_key_unique) as Rt.
  unfold MessageService.storeMessage, MessageService.findOrCreateThread,
    MessageService.getMessageByAccountAndMessageId,
    StorageService.storeMessage, StorageService.storeAttachment.
  repeat step_moves Rr Rt; try (intros H; exact H).
  - match goal with H : _ = Ok _ |- _ => apply insert_attachment_ok in H as -> end.
    intros H; exact H.
  - match goal with H : _ = Ok _ |- _ => apply insert_thread_ok in H as -> end.
    intros H; exact H.
  - match goal with H : _ = Ok _ |- _ => apply insert_message_ok in H as (-> & Hfresh & _) end.
    intros H. unfold dedup_key_unique in *. simpl. rewrite map_app. simpl.
    apply NoDup_snoc; [exact H|]. apply same_key_absent. exact Hfresh.
Qed.

(** Reading a result backwards. *)
Lemma bind_Ok_inv {A B} (m : M A) (k : A -> M B) s b s' :
  bind m k s = (Ok b, s') ->
  exists a s1, m s = (Ok a, s1) /\ k a s1 = (Ok b, s').
Proof.
  unfold bind. destruct (m s) as [[a|e] s1]; [eauto | discriminate].
Qed.

Lemma try_catch_Ok_inv {A} (m : M A) (h : Error -> M A) s a s' :
  (forall e s1, is_ok (fst (h e s1)) = false) ->
  try_catch m h s = (Ok a, s') -> m s = (Ok a, s').
Proof.
  intros Hh. unfold try_catch. destruct (m s) as [[x|e] s1]; [auto|].
  intros H. specialize (Hh e s1). rewrite H in Hh. discriminate.
Qed.

Lemma db_exec_Ok_inv q s u s' :
  db_exec q s = (Ok u, s') -> exists d, q (db s) = Ok d /\ s' = with_db s d.
Proof.
  unfold db_exec. destruct (q (db s)) as [d|e]; [|discriminate].
  intros H. injection H as _ <-. eauto.
Qed.

Lemma log_then_throw_fails {A} c l t a e s :
  is_ok (fst ((let* _ := logger c l t a in @throw A e) s)) = false.
Proof. reflexivity. Qed.

(** Everything that [storeMessage] does before its [INSERT INTO messages]
    leaves the table of the messages as it was. *)
Lemma findOrCreateThread_keeps_messages w emailMessage :
  moves (keeps (fun s => Db.messages (db s))) (MessageService.findOrCreateThread w emailMessage).
Proof.
  pose proof (keeps_refl (fun s => Db.messages (db s))) as Rr.
  pose proof (keeps_trans (fun s => Db.messages (db s))) as Rt.
  unfold MessageService.findOrCreateThread.
  repeat step_moves Rr Rt; try reflexivity.
  match goal with H : _ = Ok _ |- _ => apply insert_thread_ok in H as -> end.
  reflexivity.
Qed.

Lemma storage_storeMessage_keeps_db w accountId messageId rawEmail date :
  moves (keeps db) (StorageService.storeMessage w accountId messageId rawEmail date).
Proof.
  pose proof (keeps_refl db) as Rr. pose proof (keeps_trans db) as Rt.
  unfold StorageService.storeMessage.
  repeat step_moves Rr Rt; reflexivity.
Qed.

Lemma store_attachments_keep_messages w accountId emailMessage messageUuid :
  moves (keeps (fun s => Db.messages (db s)))
    (for_each (attachments emailMessage) tt (fun attachment _ =>
         let* attachmentId := call_nanoid w in
         let* stored := StorageService.storeAttachment w accountId
                          (messageId emailMessage) attachmentId
                          (filename attachment) (content attachment)
                          (contentType attachment) in
         db_exec (Sql.insert_attachment
                    (Db.mkAttachmentRow attachmentId messageUuid (filename attachment)
                       (contentType attachment) (size attachment)
                       (fst stored) (snd stored))))).
Proof.
  pose proof (keeps_refl (fun s => Db.messages (db s))) as Rr.
  pose proof (keeps_trans (fun s => Db.messages (db s))) as Rt.
  unfold StorageService.storeAttachment.
  repeat step_moves Rr Rt; try reflexivity.
  match goal with H : _ = Ok _ |- _ => apply insert_attachment_ok in H as -> end.
  reflexivity.
Qed.

Lemma storeMessage_hit w accountId emailMessage s row :
  Sql.select_message_by_account_and_message_id accountId (messageId emailMessage) (db s)
    = Some row ->
  MessageService.storeMessage w accountId emailMessage s
    = (Ok row, with_nanoid_calls s (S (nanoid_calls s))).
Proof.
  intros H. unfold MessageService.storeMessage, try_catch, bind, call_nanoid,
    MessageService.getMessageByAccountAndMessageId, db_read, gets. simpl.
  rewrite H. reflexivity.
Qed.

(** A call that finds no stored message with the key and resolves has run
    the [INSERT] on a database with the same messages. *)
Lemma storeMessage_miss w accountId emailMessage s r s' :
  Sql.select_message_by_account_and_message_id accountId (messageId emailMessage) (db s)
    = None ->
  MessageService.storeMessage w accountId emailMessage s = (Ok r, s') ->
  exists d,
    Db.messages d = Db.messages (db s)
    /\ Sql.insert_message r d = Ok (db s')
    /\ dedup_key r = (accountId, messageId emailMessage).
Proof.
  intros Hnone Hrun. unfold MessageService.storeMessage in Hrun.
  apply try_catch_Ok_inv in Hrun; [|intros; apply log_then_throw_fails].
  apply bind_Ok_inv in Hrun as (messageUuid & s1 & Hid & Hrun).
  unfold call_nanoid in Hid. injection Hid as <- <-.
  apply bind_Ok_inv in Hrun as (existing & s2 & Hget & Hrun).
  unfold MessageService.getMessageByAccountAndMessageId, db_read, gets in Hget.
  simpl in Hget. rewrite Hnone in Hget. injection Hget as <- <-.
  apply bind_Ok_inv in Hrun as (s3Key & t1 & Hblob & Hrun).
  apply bind_Ok_inv in Hrun as (u & t2 & Hatts & Hrun).
  apply bind_Ok_inv in Hrun as (threadId & t3 & Hthread & Hrun).
  apply bind_Ok_inv in Hrun as (u' & t4 & Hins & Hrun).
  injection Hrun as <- <-.
  apply db_exec_Ok_inv in Hins as (d & Hins & ->).
  exists (db t3). split; [|split; [exact Hins | reflexivity]].
  pose proof (storage_storeMessage_keeps_db w accountId (messageId emailMessage)
                (rawEmail emailMessage) (date emailMessage)
                (with_nanoid_calls s (S (nanoid_calls s)))) as K1.
  rewrite Hblob in K1.
  pose proof (store_attachments_keep_messages w accountId emailMessage
                (nanoid w (nanoid_calls s)) t1) as K2.
  rewrite Hatts in K2.
  pose proof (findOrCreateThread_keeps_messages w emailMessage t2) as K3.
  rewrite Hthread in K3.
  unfold keeps in *. simpl in *. rewrite K3, K2, K1. reflexivity.
Qed.

Lemma trigger_keeps_messages NEW d :
  Db.messages (Sql.update_thread_participants NEW d) = Db.messages d.
Proof. reflexivity. Qed.



Lemma insert_message_keeps_unique r d d' :
  NoDup (List.map dedup_key (Db.messages d)) ->
  Sql.insert_message r d = Ok d' ->
  NoDup (List.map dedup_key (Db.messages d')).
Proof.
  intros H Hins. apply insert_message_ok in Hins as (-> & Hfresh & _).
  simpl. rewrite map_app. simpl.
  apply NoDup_snoc; [exact H|]. apply same_key_absent. exact Hfresh.
Qed.

Lemma initial_state_unique : dedup_key_unique initial_state.
Proof. constructor. Qed.

(** C1. Dedup invariant: from a state in which no two stored messages share
    [(account_id, message_id)], no sequence of [storeMessage] calls leads to
    a state in which two do; in the state reached, a call for a message
    whose key is stored resolves with the stored row and changes nothing
    that is stored; and the [INSERT] itself, whenever it is run, keeps the
    keys distinct, by the [UNIQUE] constraint of the table. *)
Theorem C1_dedup_key_unique (calls : list StoreCall) (s : State) :
  dedup_key_unique s ->
  dedup_key_unique (store_all calls s)
  /\ (forall w accountId emailMessage row,
        In row (Db.messages (db (store_all calls s))) ->
        dedup_key row = (accountId, messageId emailMessage) ->
        exists s',
          MessageService.storeMessage w accountId emailMessage (store_all calls s)
            = (Ok row, s')
          /\ same_stores (store_all calls s) s')
  /\ (forall r d,
        Sql.insert_message r (db (store_all calls s)) = Ok d ->
        NoDup (List.map dedup_key (Db.messages d))).
Proof.
  intros Hs.
  assert (dedup_key_unique (store_all calls s)) as Hall.
  { revert s Hs. induction calls as [|c calls IH]; intros s Hs; simpl.
    - exact Hs.
    - apply IH. apply (storeMessage_stable_unique _ _ _ s Hs). }
  split; [exact Hall|].
  split; [|intros r d Hins; apply (insert_message_keeps_unique _ _ _ Hall Hins)].
  intros w accountId emailMessage row Hin Hkey.
  set (S := store_all calls s) in *.
  assert (Sql.select_message_by_account_and_message_id accountId
            (messageId emailMessage) (db S) = Some row) as Hsel.
  { unfold Sql.select_message_by_account_and_message_id.
    unfold dedup_key_unique in Hall.
    induction (Db.messages (db S)) as [|m ms IH]; [destruct Hin|].
    simpl in *. apply NoDup_cons in Hall as [Hm Hms].
    destruct (Sql.same_key accountId (messageId emailMessage) m) eqn:E.
    - destruct Hin as [->|Hin]; [reflexivity|]. exfalso. apply Hm.
      apply list_elem_of_In. apply in_map_iff. exists row. split; [|exact Hin].
      rewrite Hkey. unfold Sql.same_key in E.
      apply andb_true_iff in E as [Ea Ei].
      apply String.eqb_eq in Ea, Ei. unfold dedup_key. congruence.
    - destruct Hin as [->|Hin].
      + unfold dedup_key in Hkey. injection Hkey as Ha Hi.
        unfold Sql.same_key in E. rewrite Ha, Hi, !String.eqb_refl in E. discriminate.
      + apply IH; assumption. }
  eexists. split; [apply storeMessage_hit; exact Hsel|].
  repeat split.
Qed.

Lemma C1_dedup_key_unique_witness :
  dedup_key_unique Scenario.fresh
  /\ dedup_key_unique
       (store_all [mkStoreCall Scenario.world_B Scenario.account Scenario.message_1;
                   mkStoreCall Scenario.world_B Scenario.account Scenario.message_1]
          Scenario.fresh).
Proof.
  assert (dedup_key_unique Scenario.fresh) as H by constructor.
  split; [exact H|].
  exact (proj1 (C1_dedup_key_unique _ Scenario.fresh H)).
Defined.



(** ** Thread resolution *)




(** The state with two threads on one normalized subject is what the
    interleaved statements of two stores produce. *)
Lemma two_threads_interleaved :
  exists d, ScenarioThreads.interleaved = Some d /\ db ScenarioThreads.two_threads = d.
Proof. eexists. split; vm_compute; reflexivity. Qed.



Lemma trigger_keeps_subjects NEW d :
  List.map Db.thr_subject_normalized (Db.threads (Sql.update_thread_participants NEW d))
  = List.map Db.thr_subject_normalized (Db.threads d).
Proof.
  unfold Sql.update_thread_participants. simpl. rewrite map_map.
  apply map_ext. intros th. destruct (String.eqb _ _); reflexivity.
Qed.

Lemma findOrCreateThread_stable_subjects w emailMessage :
  moves (stable subjects_distinct) (MessageService.findOrCreateThread w emailMessage).
Proof.
  intros s Hs.
  unfold MessageService.findOrCreateThread, try_catch, bind.
  destruct ((match JS.truthy (inReplyTo emailMessage) with
             | Some ref => db_read (Sql.select_thread_id_by_message_id ref)
             | None => ret None
             end) s) as [[byReference|e] s1] eqn:E1.
  - assert (s1 = s) as ->.
    { destruct (JS.truthy (inReplyTo emailMessage)); unfold db_read, gets, ret in E1;
        injection E1 as _ <-; reflexivity. }
    destruct byReference as [thread_id|]; [exact Hs|].
    unfold db_read, gets, Sql.select_thread_by_subject. simpl.
    destruct (List.find _ (Db.threads (db s))) as [th|] eqn:Hfind; simpl; [exact Hs|].
    unfold db_exec, Sql.insert_thread. simpl.
    destruct (existsb _ (Db.threads (db s))); simpl; [exact Hs|].
    unfold subjects_distinct in *. simpl. rewrite map_app. simpl.
    apply NoDup_snoc; [exact Hs|].
    intros Hin. apply in_map_iff in Hin as (th & Heq & Hin).
    apply (find_none _ _ Hfind) in Hin. rewrite Heq, String.eqb_refl in Hin.
    discriminate.
  - destruct (JS.truthy (inReplyTo emailMessage)); discriminate.
Qed.

(** Stores that run one after the other keep the normalized subjects of the
    threads pairwise distinct. *)
Lemma storeMessage_stable_subjects w accountId emailMessage :
  moves (stable subjects_distinct) (MessageService.storeMessage w accountId emailMessage).
Proof.
  pose proof (stable_refl subjects_distinct) as Rr.
  pose proof (stable_trans subjects_distinct) as Rt.
  unfold MessageService.storeMessage,
    MessageService.getMessageByAccountAndMessageId,
    StorageService.storeMessage, StorageService.storeAttachment.
  repeat first
    [ apply findOrCreateThread_stable_subjects | step_moves Rr Rt ];
    try (intros H; exact H).
  - match goal with H : _ = Ok _ |- _ => apply insert_attachment_ok in H as -> end.
    intros H; exact H.
  - match goal with H : _ = Ok _ |- _ => apply insert_message_ok in H as (-> & _ & _) end.
    intros H. unfold subjects_distinct in *. simpl db.
    rewrite trigger_keeps_subjects. exact H.
Qed.

(** ** Subject normalization *)

Lemma match_literal_ci_length p s rest :
  JS.match_literal_ci p s = Some rest ->
  String.length s = (String.length p + String.length rest)%nat.
Proof.
  revert s. induction p as [|a p IH]; intros s H; simpl in *.
  - injection H as <-. reflexivity.
  - destruct s as [|c s]; [discriminate|].
    destruct (JS.eq_ci c a); [|discriminate].
    simpl. f_equal. apply IH. exact H.
Qed.

Lemma trimStart_length s : (String.length (JS.trimStart s) <= String.length s)%nat.
Proof.
  induction s as [|c s IH]; simpl; [lia|].
  destruct (JS.is_space c); simpl; lia.
Qed.

Lemma exec_at_shorter s rest :
  MessageService.exec_at 0 s = Some rest ->
  (String.length rest < String.length s)%nat.
Proof.
  unfold MessageService.exec_at, MessageService.prefixes.
  intros H.
  assert (forall lit r, JS.match_literal_ci lit s = Some r ->
                        (0 < String.length lit)%nat ->
                        (String.length (JS.trimStart r) < String.length s)%nat) as Hlit.
  { intros lit r Hm Hpos. apply match_literal_ci_length in Hm.
    pose proof (trimStart_length r). lia. }
  change (option_map JS.trimStart
            match
              match JS.match_literal_ci "re:" s with
              | Some r => Some r
              | None => JS.match_literal_ci "fwd:" s
              end
            with
            | Some r => Some r
            | None => JS.match_literal_ci "fw:" s
            end = Some rest) in H.
  destruct (JS.match_literal_ci "re:" s) as [r1|] eqn:E1.
  { injection H as <-. apply (Hlit _ _ E1). simpl. lia. }
  destruct (JS.match_literal_ci "fwd:" s) as [r2|] eqn:E2.
  { injection H as <-. apply (Hlit _ _ E2). simpl. lia. }
  destruct (JS.match_literal_ci "fw:" s) as [r3|] eqn:E3.
  { injection H as <-. apply (Hlit _ _ E3). simpl. lia. }
  discriminate.
Qed.

Lemma replace_loop_past_start fuel index s :
  index <> 0%nat -> MessageService.replace_loop fuel index s = s.
Proof.
  revert index s. induction fuel as [|fuel IH]; intros index s Hi; simpl; [reflexivity|].
  unfold MessageService.exec_at.
  destruct (Nat.eqb_spec index 0) as [->|_]; [contradiction|].
  destruct s as [|c s]; [reflexivity|]. f_equal. apply IH. discriminate.
Qed.

(** Whatever the subject, the replacement removes the match that starts at
    index 0, if there is one, and nothing else. *)
Lemma replace_prefixes_once s :
  MessageService.replace_prefixes s
  = match MessageService.exec_at 0 s with
    | Some rest => rest
    | None => s
    end.
Proof.
  unfold MessageService.replace_prefixes. simpl.
  destruct (MessageService.exec_at 0 s) as [rest|] eqn:E.
  - apply replace_loop_past_start. apply exec_at_shorter in E. lia.
  - destruct s as [|c s]; [reflexivity|]. f_equal.
    apply replace_loop_past_start. discriminate.
Qed.

(** C9. [normalizeSubject] removes one leading reply or forward prefix, not
    every one: ["Re: Fwd: X"] keeps its second prefix and does not normalize
    to the value of ["X"]. *)
Theorem C9_normalizeSubject_strips_one_prefix :
  MessageService.normalizeSubject "Re: Fwd: X" = "fwd: x"
  /\ MessageService.normalizeSubject "X" = "x"
  /\ MessageService.normalizeSubject "Re: Fwd: X" <> MessageService.normalizeSubject "X".
Proof. repeat split. vm_compute. discriminate. Qed.

(** ** The start of the fetch window *)


(** 1 700 000 000 000 ms is 14 November 2023; 30 days before is the 15th
    (of October). *)
Lemma getDate_examples :
  JSDate.getDate Scenario.world_B 1700000000000 = 14
  /\ JSDate.getDate Scenario.world_B (1700000000000 - 30 * JSDate.msPerDay) = 15
  /\ JSDate.getDate Scenario.world_B 0 = 1
  /\ JSDate.getDate Scenario.world_B 951782400000 = 29.
Proof. vm_compute. repeat split. Qed.



(** ** Fetching *)

Lemma with_log_nil s : with_log s (log s ++ []) = s.
Proof. destruct s. simpl. rewrite app_nil_r. reflexivity. Qed.

Lemma with_log_app s l1 l2 :
  with_log (with_log s (log s ++ l1)) (log (with_log s (log s ++ l1)) ++ l2)
  = with_log s (log s ++ l1 ++ l2).
Proof. destruct s. simpl. rewrite <- app_assoc. reflexivity. Qed.

Lemma fetchFullMessage_record w messageId s :
  GmailAdapter.fetchFullMessage w messageId s
  = (Ok (record w messageId),
     with_log s (log s ++ (if malformed w messageId then [skipped_entry w messageId] else []))).
Proof.
  unfold GmailAdapter.fetchFullMessage, malformed, record, skipped_entry, try_catch, bind.
  destruct (gmail_get w messageId) as [data|e]; simpl.
  - destruct (JS.truthy (raw data)) as [rawEmail|]; simpl.
    + destruct (simpleParser w rawEmail) as [parsed|e]; simpl.
      * rewrite with_log_nil. reflexivity.
      * reflexivity.
    + reflexivity.
  - reflexivity.
Qed.

Lemma promise_all_records w messageIds s :
  GmailAdapter.promise_all (GmailAdapter.fetchFullMessage w) messageIds s
  = (Ok (List.map (record w) messageIds), with_log s (log s ++ fetch_log w messageIds)).
Proof.
  revert s. induction messageIds as [|id ids IH]; intros s; simpl.
  - unfold ret. rewrite with_log_nil. reflexivity.
  - unfold bind. rewrite fetchFullMessage_record, IH. unfold ret.
    rewrite with_log_app. reflexivity.
Qed.

(** When the listing succeeds, the fetch resolves with the records that are
    well formed, in the order of the listing, and logs one line for every
    other record; it changes nothing else. *)
Lemma fetchMessages_records w accountId options s messageIds :
  gmail_list w (GmailAdapter.buildQuery options) (GmailAdapter.maxResults options)
    = Ok messageIds ->
  GmailAdapter.fetchMessages w accountId options s
  = (Ok (GmailAdapter.non_null (List.map (record w) messageIds)),
     with_log s (log s ++ fetch_log w messageIds)).
Proof.
  intros Hlist. unfold GmailAdapter.fetchMessages, try_catch, bind. rewrite Hlist.
  unfold ret at 1. destruct messageIds as [|id ids].
  - unfold ret. simpl. rewrite with_log_nil. reflexivity.
  - rewrite promise_all_records. reflexivity.
Qed.

Lemma fetchMessages_rejects w accountId options s e :
  gmail_list w (GmailAdapter.buildQuery options) (GmailAdapter.maxResults options)
    = Throw e ->
  GmailAdapter.fetchMessages w accountId options s
  = (Throw e,
     with_log s (log s ++ [mkLogEntry "gmail-adapter" LogError
                             "Failed to fetch Gmail messages" accountId])).
Proof.
  intros Hlist. unfold GmailAdapter.fetchMessages, try_catch, bind. rewrite Hlist.
  reflexivity.
Qed.






(** ** The store loop of the orchestrator *)

Lemma grows_refl s : grows s s.
Proof. split; auto. Qed.

Lemma grows_trans s1 s2 s3 : grows s1 s2 -> grows s2 s3 -> grows s1 s3.
Proof. intros [A1 B1] [A2 B2]. split; auto. Qed.

Lemma stored_grows accountId m s s' : grows s s' -> stored accountId m s -> stored accountId m s'.
Proof. intros [Hm _] (row & Hin & Hkey). exists row. auto. Qed.

Lemma skipped_grows m s s' : grows s s' -> skipped m s -> skipped m s'.
Proof. intros [_ Hl] H. apply Hl. exact H. Qed.

Lemma storeMessage_grows w accountId emailMessage :
  moves grows (MessageService.storeMessage w accountId emailMessage).
Proof.
  pose proof grows_refl as Rr. pose proof grows_trans as Rt.
  unfold MessageService.storeMessage, MessageService.findOrCreateThread,
    MessageService.getMessageByAccountAndMessageId,
    StorageService.storeMessage, StorageService.storeAttachment.
  repeat step_moves Rr Rt;
    try (split; simpl; intros; auto; apply in_or_app; left; assumption).
  - match goal with H : _ = Ok _ |- _ => apply insert_attachment_ok in H as -> end.
    split; simpl; auto.
  - match goal with H : _ = Ok _ |- _ => apply insert_thread_ok in H as -> end.
    split; simpl; auto.
  - match goal with H : _ = Ok _ |- _ => apply insert_message_ok in H as (-> & _ & _) end.
    split; simpl; auto. intros row Hin. apply in_or_app. left. exact Hin.
Qed.

Lemma storeMessage_keeps_orchestration w accountId emailMessage :
  moves (keeps orchestration) (MessageService.storeMessage w accountId emailMessage).
Proof.
  pose proof (keeps_refl orchestration) as Rr.
  pose proof (keeps_trans orchestration) as Rt.
  unfold MessageService.storeMessage, MessageService.findOrCreateThread,
    MessageService.getMessageByAccountAndMessageId,
    StorageService.storeMessage, StorageService.storeAttachment.
  repeat step_moves Rr Rt; try reflexivity.
  - match goal with H : _ = Ok _ |- _ => apply insert_attachment_ok in H as -> end.
    reflexivity.
  - match goal with H : _ = Ok _ |- _ => apply insert_thread_ok in H as -> end.
    reflexivity.
  - match goal with H : _ = Ok _ |- _ => apply insert_message_ok in H as (-> & _ & _) end.
    reflexivity.
Qed.

Lemma storeMessage_keeps_index_queue w accountId emailMessage :
  moves (keeps index_queue) (MessageService.storeMessage w accountId emailMessage).
Proof.
  pose proof (keeps_refl index_queue) as Rr.
  pose proof (keeps_trans index_queue) as Rt.
  unfold MessageService.storeMessage, MessageService.findOrCreateThread,
    MessageService.getMessageByAccountAndMessageId,
    StorageService.storeMessage, StorageService.storeAttachment.
  repeat step_moves Rr Rt; reflexivity.
Qed.

(** A call that resolves has the row it returns in the table, under the key
    of the message. *)
Lemma storeMessage_Ok_stored w accountId emailMessage s r s' :
  MessageService.storeMessage w accountId emailMessage s = (Ok r, s') ->
  In r (Db.messages (db s')) /\ dedup_key r = (accountId, messageId emailMessage).
Proof.
  intros Hrun.
  destruct (Sql.select_message_by_account_and_message_id accountId
              (messageId emailMessage) (db s)) as [row|] eqn:Hsel.
  - rewrite (storeMessage_hit _ _ _ _ _ Hsel) in Hrun. injection Hrun as <- <-.
    unfold Sql.select_message_by_account_and_message_id in Hsel.
    apply find_some in Hsel as [Hin Hkey]. split; [exact Hin|].
    unfold Sql.same_key in Hkey. apply andb_true_iff in Hkey as [Ha Hi].
    apply String.eqb_eq in Ha, Hi. unfold dedup_key. congruence.
  - destruct (storeMessage_miss _ _ _ _ _ _ Hsel Hrun) as (d & Hmsgs & Hins & Hkey).
    apply insert_message_ok in Hins as (Hdb & _ & _).
    split; [|exact Hkey]. rewrite Hdb. simpl. apply in_or_app. right. left. reflexivity.
Qed.

(** One turn of the loop never rejects; it leaves the message stored or
    logged as skipped, and counts it exactly when it queued its index job. *)
Lemma store_one_turn w accountId m n s :
  exists n' s',
    SyncService.store_one w accountId m n s = (Ok n', s')
    /\ (stored accountId m s' \/ skipped m s')
    /\ ((n' = n + 1 /\ exists id, index_queue s' = (index_queue s ++ [id])%list)
        \/ (n' = n /\ index_queue s' = index_queue s)).
Proof.
  unfold SyncService.store_one, try_catch, bind.
  destruct (MessageService.storeMessage w accountId m s) as [[row|e] s1] eqn:Hstore.
  - pose proof (storeMessage_keeps_index_queue w accountId m s) as Hq.
    rewrite Hstore in Hq. unfold keeps in Hq. simpl in Hq.
    unfold Queues.addIndexJob, bind, external.
    destruct (queue_add w (Db.msg_id row)) as [e|]; simpl.
    + eexists. eexists. split; [reflexivity|]. split.
      * right. unfold skipped. simpl. apply in_or_app. right. left. reflexivity.
      * right. split; [reflexivity | exact Hq].
    + eexists. eexists. split; [reflexivity|]. split.
      * left. apply storeMessage_Ok_stored in Hstore as [Hin Hkey].
        exists row. split; [exact Hin | exact Hkey].
      * left. split; [reflexivity|]. exists (Db.msg_id row). simpl. rewrite Hq. reflexivity.
  - pose proof (storeMessage_keeps_index_queue w accountId m s) as Hq.
    rewrite Hstore in Hq. unfold keeps in Hq. simpl in Hq.
    eexists. eexists. split; [reflexivity|]. split.
    + right. unfold skipped. simpl. apply in_or_app. right. left. reflexivity.
    + right. split; [reflexivity | exact Hq].
Qed.

Lemma addIndexJob_grows w id : moves grows (Queues.addIndexJob w id).
Proof.
  pose proof grows_refl as Rr. pose proof grows_trans as Rt.
  unfold Queues.addIndexJob. repeat step_moves Rr Rt. split; simpl; auto.
Qed.

Lemma store_one_grows w accountId m n : moves grows (SyncService.store_one w accountId m n).
Proof.
  pose proof grows_refl as Rr. pose proof grows_trans as Rt.
  unfold SyncService.store_one.
  repeat first [ apply storeMessage_grows | apply addIndexJob_grows | step_moves Rr Rt ].
  split; simpl; auto. intros. apply in_or_app. left. assumption.
Qed.

Lemma store_one_keeps_orchestration w accountId m n :
  moves (keeps orchestration) (SyncService.store_one w accountId m n).
Proof.
  pose proof (keeps_refl orchestration) as Rr.
  pose proof (keeps_trans orchestration) as Rt.
  unfold SyncService.store_one, Queues.addIndexJob.
  repeat first [ apply storeMessage_keeps_orchestration | step_moves Rr Rt ];
    reflexivity.
Qed.

(** The loop resolves, with every message stored or logged as skipped, and
    with as many index jobs queued as messages counted. *)
Lemma store_loop w accountId messages n s :
  exists n' s' queued,
    for_each messages n (SyncService.store_one w accountId) s = (Ok n', s')
    /\ (forall m, In m messages -> stored accountId m s' \/ skipped m s')
    /\ index_queue s' = (index_queue s ++ queued)%list
    /\ n' = n + Z.of_nat (length queued)
    /\ orchestration s' = orchestration s
    /\ grows s s'.
Proof.
  revert n s. induction messages as [|m ms IH]; intros n s; simpl.
  - exists n, s, []. unfold ret. rewrite app_nil_r. simpl.
    repeat split; auto; try lia; intros m [].
  - unfold bind.
    destruct (store_one_turn w accountId m n s) as (n1 & s1 & Hone & Hm & Hcount).
    pose proof (store_one_keeps_orchestration w accountId m n s) as Ho.
    pose proof (store_one_grows w accountId m n s) as Hg.
    rewrite Hone in Ho, Hg |- *. unfold keeps in Ho. simpl in Ho, Hg.
    destruct (IH n1 s1) as (n' & s' & queued & Hrun & Hall & Hq & Hn & Ho' & Hg').
    rewrite Hrun.
    destruct Hcount as [(-> & id & Hq1) | (-> & Hq1)].
    + exists n', s', (id :: queued). split; [reflexivity|]. repeat split.
      * intros m' [<-|Hin]; [|apply Hall; exact Hin].
        destruct Hm as [Hm|Hm];
          [left; eapply stored_grows | right; eapply skipped_grows]; eassumption.
      * rewrite Hq, Hq1, <- app_assoc. reflexivity.
      * rewrite Hn. simpl length. lia.
      * congruence.
      * apply (grows_trans _ _ _ Hg Hg').
      * apply (grows_trans _ _ _ Hg Hg').
    + exists n', s', queued. split; [reflexivity|]. repeat split.
      * intros m' [<-|Hin]; [|apply Hall; exact Hin].
        destruct Hm as [Hm|Hm];
          [left; eapply stored_grows | right; eapply skipped_grows]; eassumption.
      * rewrite Hq, Hq1. reflexivity.
      * exact Hn.
      * congruence.
      * apply (grows_trans _ _ _ Hg Hg').
      * apply (grows_trans _ _ _ Hg Hg').
Qed.

(** ** The phases of [syncAccount] *)

Lemma find_account_exists accountId accounts a :
  List.find (fun a => String.eqb (Db.acc_id a) accountId) accounts = Some a ->
  existsb (fun a => String.eqb (Db.acc_id a) accountId) accounts = true.
Proof.
  intros H. apply find_some in H as [Hin Hid]. apply existsb_exists. eauto.
Qed.

(** An [UPDATE accounts ... WHERE id = $n] as the row found for that id
    sees it. *)
Lemma find_account_updated accountId (f : Db.AccountRow -> Db.AccountRow) accounts :
  (forall a, Db.acc_id (f a) = Db.acc_id a) ->
  List.find (fun a => String.eqb (Db.acc_id a) accountId)
    (List.map (fun a => if String.eqb (Db.acc_id a) accountId then f a else a) accounts)
  = option_map f (List.find (fun a => String.eqb (Db.acc_id a) accountId) accounts).
Proof.
  intros Hid. induction accounts as [|a accounts IH]; simpl; [reflexivity|].
  destruct (String.eqb (Db.acc_id a) accountId) eqn:E.
  - simpl. rewrite Hid, E. reflexivity.
  - simpl. rewrite E. exact IH.
Qed.

Lemma select_after_status accountId status error d :
  Sql.select_account accountId (Sql.update_account_status accountId status error d)
  = option_map
      (fun a => Db.mkAccountRow (Db.acc_id a) (Db.acc_provider a) (Db.acc_email a) status
                  (Db.acc_last_sync_at a) error (Db.acc_sync_cursor a))
      (Sql.select_account accountId d).
Proof.
  unfold Sql.select_account, Sql.update_account_status. simpl.
  apply find_account_updated. reflexivity.
Qed.

Lemma select_after_cursor accountId cursor lastSyncAt d :
  Sql.select_account accountId (Sql.update_sync_cursor accountId cursor lastSyncAt d)
  = option_map
      (fun a => Db.mkAccountRow (Db.acc_id a) (Db.acc_provider a) (Db.acc_email a)
                  (Db.acc_status a) (Some lastSyncAt) (Db.acc_last_sync_error a)
                  (Some cursor))
      (Sql.select_account accountId d).
Proof.
  unfold Sql.select_account, Sql.update_sync_cursor. simpl.
  apply find_account_updated. reflexivity.
Qed.

Lemma check_active_active accountId s a :
  Sql.select_account accountId (db s) = Some a ->
  Db.acc_status a = active ->
  SyncService.check_active accountId s = (Ok (Some a), s).
Proof.
  intros Hsel Hst. unfold SyncService.check_active, bind,
    AccountService.getAccountById, db_read, gets.
  rewrite Hsel, Hst. reflexivity.
Qed.

Lemma check_active_inactive accountId s a :
  Sql.select_account accountId (db s) = Some a ->
  Db.acc_status a <> active ->
  SyncService.check_active accountId s
  = (Ok None,
     with_log s (log s ++ [mkLogEntry "sync-service" LogWarn "Account is not active" accountId])).
Proof.
  intros Hsel Hst. unfold SyncService.check_active, bind,
    AccountService.getAccountById, db_read, gets.
  rewrite Hsel. destruct (Db.acc_status a); try contradiction; reflexivity.
Qed.

Lemma connect_ok w accountId options a s c :
  vault_outage w = None ->
  vault s !! accountId = Some c ->
  Db.acc_provider a = gmail ->
  gmail_getProfile w = None ->
  SyncService.connect w accountId options a s = (Ok (SyncService.sync_start w options a), s).
Proof.
  intros Hv Hc Hp Hg.
  unfold SyncService.connect, bind, VaultService.getAccountCredentials.
  rewrite Hv. unfold bind, gets. rewrite Hc. unfold ret at 1.
  unfold SyncService.createAdapter. rewrite Hp. unfold ret at 1.
  unfold GmailAdapter.testConnection, try_catch, bind, external. rewrite Hg.
  reflexivity.
Qed.

Lemma createSyncJob_ok w accountId s :
  existsb (fun a => String.eqb (Db.acc_id a) accountId) (Db.accounts (db s)) = true ->
  SyncService.createSyncJob w accountId s
  = (Ok (Db.uuid_generated (db s)),
     with_db s
       (Db.with_sync_jobs (db s)
          (Db.sync_jobs (db s)
             ++ [Db.mkSyncJobRow (Db.uuid_generated (db s)) accountId running
                   (Some (now w)) None 0 None])
          (S (Db.uuid_generated (db s))))).
Proof.
  intros H. unfold SyncService.createSyncJob, db_returning, Sql.insert_running_sync_job.
  rewrite H. reflexivity.
Qed.

Lemma accounts_exist_after_status accountId status error d x :
  existsb (fun a => String.eqb (Db.acc_id a) x) (Db.accounts d) = true ->
  existsb (fun a => String.eqb (Db.acc_id a) x)
    (Db.accounts (Sql.update_account_status accountId status error d)) = true.
Proof.
  intros H. apply existsb_exists in H as (a & Hin & Hid).
  apply existsb_exists. unfold Sql.update_account_status. simpl.
  eexists. split; [apply in_map; exact Hin|].
  destruct (String.eqb (Db.acc_id a) accountId); exact Hid.
Qed.

Lemma run_job_completes w accountId options sinceDate syncJobId s messageIds :
  gmail_list w
    (GmailAdapter.buildQuery (SyncService.fetch_options options sinceDate))
    (GmailAdapter.maxResults (SyncService.fetch_options options sinceDate))
    = Ok messageIds ->
  exists n s1 queued,
    SyncService.run_job w accountId options sinceDate syncJobId s
      = (Ok (SyncService.mkSyncResult true n None), job_done w accountId syncJobId n s1)
    /\ (forall m, In m (GmailAdapter.non_null (List.map (record w) messageIds)) ->
                  stored accountId m s1 \/ skipped m s1)
    /\ index_queue s1 = (index_queue s ++ queued)%list
    /\ n = Z.of_nat (length queued)
    /\ orchestration s1 = orchestration s
    /\ grows s s1.
Proof.
  intros Hlist. unfold SyncService.run_job, try_catch, bind.
  rewrite (fetchMessages_records _ _ _ _ _ Hlist).
  destruct (store_loop w accountId
              (GmailAdapter.non_null (List.map (record w) messageIds)) 0
              (with_log s (log s ++ fetch_log w messageIds)))
    as (n & s1 & queued & Hloop & Hall & Hq & Hn & Ho & Hg).
  rewrite Hloop. exists n, s1, queued.
  split; [reflexivity|]. split; [exact Hall|]. split; [exact Hq|].
  split; [lia|]. split; [exact Ho|].
  eapply grows_trans; [|exact Hg]. split; simpl; auto.
  intros e He. apply in_or_app. left. exact He.
Qed.

Lemma run_job_fails w accountId options sinceDate syncJobId s e :
  gmail_list w
    (GmailAdapter.buildQuery (SyncService.fetch_options options sinceDate))
    (GmailAdapter.maxResults (SyncService.fetch_options options sinceDate))
    = Throw e ->
  SyncService.run_job w accountId options sinceDate syncJobId s
  = (Throw e, job_failed w accountId syncJobId e s).
Proof.
  intros Hlist. unfold SyncService.run_job, try_catch, bind.
  rewrite (fetchMessages_rejects _ _ _ _ _ Hlist). reflexivity.
Qed.

(** The inner block rejects only when the listing of the messages does. *)
Lemma run_job_outcome w accountId options sinceDate syncJobId s :
  (exists n s1,
     SyncService.run_job w accountId options sinceDate syncJobId s
       = (Ok (SyncService.mkSyncResult true n None), job_done w accountId syncJobId n s1)
     /\ orchestration s1 = orchestration s)
  \/ (exists e,
        SyncService.run_job w accountId options sinceDate syncJobId s
          = (Throw e, job_failed w accountId syncJobId e s)).
Proof.
  destruct (gmail_list w
              (GmailAdapter.buildQuery (SyncService.fetch_options options sinceDate))
              (GmailAdapter.maxResults (SyncService.fetch_options options sinceDate)))
    as [ids|e] eqn:Hlist.
  - left. destruct (run_job_completes _ accountId _ _ syncJobId s _ Hlist)
      as (n & s1 & queued & Hrun & _ & _ & _ & Ho & _).
    exists n, s1. split; assumption.
  - right. exists e. apply run_job_fails. exact Hlist.
Qed.

(** A sync of an account that can be synced, whose listing succeeds, ends
    with the job completed and the account active, whatever happened to the
    single messages. *)
Lemma syncAccount_completes w accountId options s messageIds :
  syncable w accountId s ->
  gmail_list w
    (GmailAdapter.buildQuery
       (SyncService.fetch_options options (window_start w accountId options s)))
    (GmailAdapter.maxResults
       (SyncService.fetch_options options (window_start w accountId options s)))
    = Ok messageIds ->
  exists n s' queued,
    SyncService.syncAccount w accountId options s
      = (Ok (SyncService.mkSyncResult true n None), s')
    /\ In (Db.mkSyncJobRow (Db.uuid_generated (db s)) accountId completed
             (Some (now w)) (Some (now w)) n None)
          (Db.sync_jobs (db s'))
    /\ account_status accountId s' = Some active
    /\ (forall m, In m (GmailAdapter.non_null (List.map (record w) messageIds)) ->
                  stored accountId m s' \/ skipped m s')
    /\ index_queue s' = (index_queue s ++ queued)%list
    /\ n = Z.of_nat (length queued)
    /\ vault s' = vault s.
Proof.
  intros ((a & Hsel & Hst & Hp) & Hv & (c & Hc) & Hg) Hlist.
  unfold window_start in Hlist. rewrite Hsel in Hlist.
  unfold SyncService.syncAccount, try_catch, SyncService.sync_body, bind.
  rewrite (check_active_active _ _ _ Hsel Hst).
  unfold SyncService.mark_syncing, AccountService.updateAccountStatus, db_update, modify.
  set (s1 := with_db s (Sql.update_account_status accountId syncing (JS.truthy None) (db s))).
  rewrite (connect_ok w accountId options a s1 c Hv Hc Hp Hg).
  assert (existsb (fun a => String.eqb (Db.acc_id a) accountId) (Db.accounts (db s1)) = true)
    as Hex.
  { apply accounts_exist_after_status. apply (find_account_exists _ _ a). exact Hsel. }
  rewrite (createSyncJob_ok w accountId s1 Hex).
  set (id := Db.uuid_generated (db s1)).
  set (s2 := with_db s1 _).
  destruct (run_job_completes w accountId options _ id s2 _ Hlist)
    as (n & sb & queued & Hrun & Hall & Hq & Hn & Ho & _).
  rewrite Hrun. exists n, (job_done w accountId id n sb), queued.
  unfold orchestration in Ho. injection Ho as Hacc Hjobs Hgen Hvault.
  split; [reflexivity|]. split; [|split; [|split; [|split; [|split]]]].
  - unfold job_done. simpl. rewrite Hjobs. simpl. rewrite map_app. apply in_or_app.
    right. simpl. left. unfold id. simpl. rewrite Nat.eqb_refl. reflexivity.
  - unfold account_status, job_done. simpl db.
    rewrite (select_after_status accountId active None).
    rewrite (select_after_cursor accountId (now w) (now w)).
    assert (Sql.select_account accountId
              (Sql.update_sync_job_completed n id (now w) (db sb))
            = Sql.select_account accountId
                (Sql.update_account_status accountId syncing None (db s))) as ->.
    { unfold Sql.select_account at 1. simpl Db.accounts. rewrite Hacc. reflexivity. }
    rewrite (select_after_status accountId syncing None), Hsel. reflexivity.
  - intros m Hm. destruct (Hall m Hm) as [H|H]; [left | right]; exact H.
  - exact Hq.
  - exact Hn.
  - simpl. exact Hvault.
Qed.



(** Scenario A: the fetch returns [A], [B] in reply to [A], and [C]; [B]
    joins the thread of [A], [C] gets a thread of its own, three messages
    are stored and three index jobs are queued. *)
Lemma scenario_A :
  let synced :=
    SyncService.syncAccount Scenario.world_A Scenario.account SyncService.no_options
      Scenario.fresh in
  fst synced = Ok (SyncService.mkSyncResult true 3 None)
  /\ List.map (fun m => (Db.msg_message_id m, Db.msg_thread_id m))
       (Db.messages (db (snd synced)))
     = [("<a@mail>", "b"); ("<b@mail>", "b"); ("<c@mail>", "e")]
  /\ List.map (fun th => (Db.thr_id th, Db.thr_message_count th))
       (Db.threads (db (snd synced)))
     = [("b", 2); ("e", 1)]
  /\ index_queue (snd synced) = ["a"; "c"; "d"].
Proof. vm_compute. repeat split. Qed.

(** ** Indexing *)

Lemma index_handler_keeps_storage messageId w :
  moves (keeps storage) (Workers.index_handler messageId w).
Proof.
  pose proof (keeps_refl storage) as Rr. pose proof (keeps_trans storage) as Rt.
  unfold Workers.index_handler, Workers.indexMessage, MessageService.getMessageById,
    StorageService.getMessage, MessageService.getMessageAttachments.
  repeat step_moves Rr Rt; reflexivity.
Qed.

Lemma attempt_keeps {A X} (f : State -> X) (handler : World -> M A) env made remaining last s :
  (forall w, moves (keeps f) (handler w)) ->
  f (snd (Bull.attempt handler env made remaining last s)) = f s.
Proof.
  intros Hh. revert made last s.
  induction remaining as [|remaining IH]; intros made last s; simpl; [reflexivity|].
  pose proof (Hh (env made) s) as H. unfold keeps in H.
  destruct (handler (env made) s) as [[r|e] s1]; simpl in *; [exact H|].
  rewrite IH. exact H.
Qed.

Lemma attempt_failed_count {A} (handler : World -> M A) env made remaining last s e n :
  fst (Bull.attempt handler env made remaining last s) = Bull.JobFailed e n ->
  n = (made + remaining)%nat.
Proof.
  revert made last s. induction remaining as [|remaining IH]; intros made last s; simpl.
  - intros H. injection H as _ <-. lia.
  - destruct (handler (env made) s) as [[r|e'] s1]; simpl; [discriminate|].
    intros H. apply IH in H. lia.
Qed.

(** C7. An index job, however it ends, leaves the database (the stored
    messages and the accounts among it), the blob store, the vault and the
    queue as they were; when its handler rejects it is run again by its own
    queue, the job failing only after the attempts of that queue are used
    up; and [syncAccount] does not depend on the search engine: with the
    engine unreachable a sync that can run completes its job all the same. *)
Theorem C7_index_failure_isolated env messageId s :
  let outcome := Workers.process_index_job messageId env s in
  storage (snd outcome) = storage s
  /\ (forall e n,
        fst outcome = Bull.JobFailed e n ->
        n = Queues.attempts Queues.defaultJobOptions)
  /\ (forall e s1 r s2,
        Workers.index_handler messageId (env 0%nat) s = (Throw e, s1) ->
        Workers.index_handler messageId (env 1%nat) s1 = (Ok r, s2) ->
        outcome = (Bull.JobCompleted r 2, s2))
  /\ (forall w search accountId options s0,
        SyncService.syncAccount (with_es_index w search) accountId options s0
        = SyncService.syncAccount w accountId options s0)
  /\ (forall w search accountId options s0 messageIds,
        syncable w accountId s0 ->
        gmail_list w
          (GmailAdapter.buildQuery
             (SyncService.fetch_options options (window_start w accountId options s0)))
          (GmailAdapter.maxResults
             (SyncService.fetch_options options (window_start w accountId options s0)))
          = Ok messageIds ->
        exists n s',
          SyncService.syncAccount (with_es_index w search) accountId options s0
            = (Ok (SyncService.mkSyncResult true n None), s')
          /\ In (Db.mkSyncJobRow (Db.uuid_generated (db s0)) accountId completed
                   (Some (now w)) (Some (now w)) n None)
                (Db.sync_jobs (db s'))).
Proof.
  intros outcome. unfold outcome, Workers.process_index_job, Bull.process.
  split; [|split; [|split; [|split]]].
  - apply attempt_keeps. intros w. apply index_handler_keeps_storage.
  - intros e n H. apply attempt_failed_count in H. exact H.
  - intros e s1 r s2 H0 H1. simpl. rewrite H0, H1. reflexivity.
  - reflexivity.
  - intros w search accountId options s0 messageIds Hsync Hlist.
    destruct (syncAccount_completes w accountId options s0 messageIds Hsync Hlist)
      as (n & s' & queued & Hrun & Hjob & _).
    exists n, s'. split; [exact Hrun | exact Hjob].
Qed.

(** Scenario C: the messages of scenario A are synced while the search
    engine is unreachable; the job completes with three messages, and the
    index job of the first message fails after three attempts without a
    change to what is stored. *)
Lemma C7_index_failure_isolated_witness :
  let synced :=
    SyncService.syncAccount ScenarioOutage.world_C Scenario.account
      SyncService.no_options Scenario.fresh in
  let indexed :=
    Workers.process_index_job "a" (fun _ => ScenarioOutage.world_C) (snd synced) in
  fst synced = Ok (SyncService.mkSyncResult true 3 None)
  /\ index_queue (snd synced) = ["a"; "c"; "d"]
  /\ fst indexed = Bull.JobFailed ScenarioOutage.unreachable 3
  /\ storage (snd indexed) = storage (snd synced).
Proof.
  intros synced indexed.
  split; [vm_compute; reflexivity|]. split; [vm_compute; reflexivity|].
  split; [vm_compute; reflexivity|].
  exact (proj1 (C7_index_failure_isolated (fun _ => ScenarioOutage.world_C) "a"
                  (snd synced))).
Defined.

(** ** Failed syncs *)

Lemma connect_keeps_db w accountId options a :
  moves (keeps db) (SyncService.connect w accountId options a).
Proof.
  pose proof (keeps_refl db) as Rr. pose proof (keeps_trans db) as Rt.
  unfold SyncService.connect, VaultService.getAccountCredentials,
    SyncService.createAdapter, GmailAdapter.testConnection.
  repeat step_moves Rr Rt; reflexivity.
Qed.

Lemma update_failed_generated errorMessage id NOW jobs new :
  (forall j, In j jobs -> (Db.job_id j < id)%nat) ->
  Db.job_id new = id ->
  List.map (fun j =>
              if Nat.eqb (Db.job_id j) id
              then Db.mkSyncJobRow (Db.job_id j) (Db.job_account_id j) failed
                     (Db.job_started_at j) (Some NOW) (Db.job_messages_synced j)
                     (Some errorMessage)
              else j) (jobs ++ [new])
  = (jobs ++ [Db.mkSyncJobRow (Db.job_id new) (Db.job_account_id new) failed
                (Db.job_started_at new) (Some NOW) (Db.job_messages_synced new)
                (Some errorMessage)])%list.
Proof.
  intros Hgen Hnew. rewrite map_app. simpl. rewrite Hnew, Nat.eqb_refl. f_equal.
  rewrite <- (map_id jobs) at 2. apply map_ext_in. intros j Hj.
  specialize (Hgen j Hj). destruct (Nat.eqb_spec (Db.job_id j) id); [lia | reflexivity].
Qed.

(** Where the outer block of a sync of an active account can reject, and
    what the database holds then: the account is marked as syncing, and the
    job, if it was created, is marked as failed. *)
Lemma sync_body_fails w accountId options s a e s1 :
  Sql.select_account accountId (db s) = Some a ->
  Db.acc_status a = active ->
  sync_jobs_generated s ->
  SyncService.sync_body w accountId options s = (Throw e, s1) ->
  Db.accounts (db s1)
    = Db.accounts (Sql.update_account_status accountId syncing None (db s))
  /\ (Db.sync_jobs (db s1) = Db.sync_jobs (db s)
      \/ Db.sync_jobs (db s1)
         = (Db.sync_jobs (db s)
              ++ [Db.mkSyncJobRow (Db.uuid_generated (db s)) accountId failed
                    (Some (now w)) (Some (now w)) 0 (Some (err_message e))])%list).
Proof.
  intros Hsel Hst Hgen. unfold SyncService.sync_body, bind.
  rewrite (check_active_active _ _ _ Hsel Hst).
  unfold SyncService.mark_syncing, AccountService.updateAccountStatus, db_update, modify.
  set (s0 := with_db s (Sql.update_account_status accountId syncing (JS.truthy None) (db s))).
  pose proof (connect_keeps_db w accountId options a s0) as Hc. unfold keeps in Hc.
  destruct (SyncService.connect w accountId options a s0) as [[sinceDate|e0] sc];
    simpl in Hc.
  - assert (existsb (fun a => String.eqb (Db.acc_id a) accountId) (Db.accounts (db sc)) = true)
      as Hex.
    { rewrite Hc. apply accounts_exist_after_status.
      apply (find_account_exists _ _ a). exact Hsel. }
    rewrite (createSyncJob_ok w accountId sc Hex).
    match goal with |- context [SyncService.run_job _ _ _ _ ?id ?st] =>
      destruct (run_job_outcome w accountId options sinceDate id st)
        as [(n & sb & Hrun & _) | (e1 & Hrun)]; rewrite Hrun
    end; [discriminate|].
    intros H. injection H as <- <-. rewrite Hc. split; [reflexivity|].
    right. unfold job_failed. simpl.
    erewrite update_failed_generated; [reflexivity | exact Hgen | reflexivity].
  - intros H. injection H as <- <-. rewrite Hc. split; [reflexivity | left; reflexivity].
Qed.

(** A sync of an account that is not active changes nothing but the log,
    and its worker rejects. *)
Lemma sync_handler_inactive accountId options w s a :
  Sql.select_account accountId (db s) = Some a ->
  Db.acc_status a <> active ->
  exists s',
    Workers.sync_handler accountId options w s
      = (Throw (mkError OtherError "Account not active"), s')
    /\ db s' = db s.
Proof.
  intros Hsel Hst.
  unfold Workers.sync_handler, try_catch, bind, SyncService.syncAccount, try_catch,
    SyncService.sync_body, bind.
  rewrite (check_active_inactive _ _ _ Hsel Hst). simpl.
  eexists. split; reflexivity.
Qed.

Lemma attempts_on_inactive accountId options env a remaining made last s :
  Sql.select_account accountId (db s) = Some a ->
  Db.acc_status a <> active ->
  exists reason s',
    Bull.attempt (Workers.sync_handler accountId options) env made remaining last s
      = (Bull.JobFailed reason (made + remaining), s')
    /\ db s' = db s.
Proof.
  intros Hsel Hst. revert made last s Hsel.
  induction remaining as [|remaining IH]; intros made last s Hsel; simpl.
  - exists last, s. rewrite Nat.add_0_r. split; reflexivity.
  - destruct (sync_handler_inactive accountId options (env made) s a Hsel Hst)
      as (s1 & Hrun & Hdb).
    rewrite Hrun.
    destruct (IH (S made) (mkError OtherError "Account not active") s1)
      as (reason & s' & Hrest & Hdb'); [rewrite Hdb; exact Hsel|].
    exists reason, s'. rewrite Hrest. split; [f_equal; f_equal; lia | congruence].
Qed.

(** C5, as amended. When the first attempt of a sync of an active account
    fails, whatever the kind of the error, the account is marked
    ['auth_failed'] with the message of the error, the sync job, if it was
    created, is marked ['failed'], and the retries of the queue find the
    account not active and reject: the queue job fails after three
    attempts and the account is left ['auth_failed']. *)
Theorem C5_failed_sync_marks_auth_failed env accountId options s e :
  account_status accountId s = Some active ->
  sync_jobs_generated s ->
  fst (SyncService.sync_body (env 0%nat) accountId options s) = Throw e ->
  let outcome := Workers.process_sync_job accountId options env s in
  (exists reason, fst outcome = Bull.JobFailed reason 3)
  /\ account_status accountId (snd outcome) = Some auth_failed
  /\ account_last_sync_error accountId (snd outcome) = JS.truthy (Some (err_message e))
  /\ (Db.sync_jobs (db (snd outcome)) = Db.sync_jobs (db s)
      \/ Db.sync_jobs (db (snd outcome))
         = (Db.sync_jobs (db s)
              ++ [Db.mkSyncJobRow (Db.uuid_generated (db s)) accountId failed
                    (Some (now (env 0%nat))) (Some (now (env 0%nat))) 0
                    (Some (err_message e))])%list).
Proof.
  intros Hactive Hgen Hbody outcome.
  unfold account_status in Hactive.
  destruct (Sql.select_account accountId (db s)) as [a|] eqn:Hsel; [|discriminate].
  simpl in Hactive. injection Hactive as Hst.
  destruct (SyncService.sync_body (env 0%nat) accountId options s) as [r s1] eqn:Hrun.
  simpl in Hbody. subst r.
  destruct (sync_body_fails _ _ _ _ _ _ _ Hsel Hst Hgen Hrun) as (Hacc & Hjobs).
  (* the first attempt *)
  assert (exists s2,
             Workers.sync_handler accountId options (env 0%nat) s
               = (Throw (mkError OtherError
                           (GmailAdapter.or_else (Some (err_message e)) "Sync failed")), s2)
             /\ db s2 = Sql.update_account_status accountId auth_failed
                          (JS.truthy (Some (err_message e))) (db s1)) as (s2 & Hfirst & Hdb2).
  { unfold Workers.sync_handler, try_catch, bind, SyncService.syncAccount, try_catch.
    rewrite Hrun. simpl. eexists. split; reflexivity. }
  assert (Sql.select_account accountId (db s2)
          = Some (Db.mkAccountRow (Db.acc_id a) (Db.acc_provider a) (Db.acc_email a)
                    auth_failed (Db.acc_last_sync_at a)
                    (JS.truthy (Some (err_message e))) (Db.acc_sync_cursor a))) as Hsel2.
  { rewrite Hdb2.
    rewrite (select_after_status accountId auth_failed (JS.truthy (Some (err_message e)))).
    unfold Sql.select_account at 1. rewrite Hacc.
    change (List.find (fun a0 => String.eqb (Db.acc_id a0) accountId)
              (Db.accounts (Sql.update_account_status accountId syncing None (db s))))
      with (Sql.select_account accountId
              (Sql.update_account_status accountId syncing None (db s))).
    rewrite (select_after_status accountId syncing None), Hsel. reflexivity. }
  (* the retries *)
  destruct (attempts_on_inactive accountId options env _ 2 1
              (mkError OtherError
                 (GmailAdapter.or_else (Some (err_message e)) "Sync failed")) s2 Hsel2)
    as (reason & s' & Hrest & Hdb'); [discriminate|].
  assert (outcome = (Bull.JobFailed reason 3, s')) as ->.
  { unfold outcome, Workers.process_sync_job, Bull.process. simpl Queues.attempts.
    change (Bull.attempt (Workers.sync_handler accountId options) env 0 3
              (mkError OtherError "no attempt") s)
      with (match Workers.sync_handler accountId options (env 0%nat) s with
            | (Ok result, s') => (Bull.JobCompleted result 1, s')
            | (Throw e0, s') =>
                Bull.attempt (Workers.sync_handler accountId options) env 1 2 e0 s'
            end).
    rewrite Hfirst. exact Hrest. }
  simpl fst. simpl snd. split; [eauto|].
  unfold account_status, account_last_sync_error. rewrite Hdb', Hsel2. simpl.
  split; [reflexivity|]. split; [reflexivity|].
  rewrite Hdb2. exact Hjobs.
Qed.

(** A timeout of the provider is not credential-related, and the account
    ends up ['auth_failed']. *)
Lemma C5_failure_kinds_kept_apart_counterexample :
  ~ failure_kinds_kept_apart (fun _ => ScenarioOutage.world) Scenario.account
      SyncService.no_options Scenario.fresh.
Proof.
  intros H.
  assert (fst (SyncService.sync_body ScenarioOutage.world Scenario.account
                 SyncService.no_options Scenario.fresh)
          = Throw ScenarioOutage.timeout) as Hbody by (vm_compute; reflexivity).
  specialize (H ScenarioOutage.timeout Hbody). vm_compute in H. discriminate.
Qed.

Lemma C5_failed_sync_marks_auth_failed_witness :
  account_status Scenario.account
    (snd (Workers.process_sync_job Scenario.account SyncService.no_options
            (fun _ => ScenarioOutage.world) Scenario.fresh))
  = Some auth_failed.
Proof.
  assert (account_status Scenario.account Scenario.fresh = Some active) as H1
    by reflexivity.
  assert (sync_jobs_generated Scenario.fresh) as H2 by (intros j []).
  assert (fst (SyncService.sync_body ScenarioOutage.world Scenario.account
                 SyncService.no_options Scenario.fresh)
          = Throw ScenarioOutage.timeout) as H3 by (vm_compute; reflexivity).
  exact (proj1 (proj2 (C5_failed_sync_marks_auth_failed
                         (fun _ => ScenarioOutage.world) Scenario.account
                         SyncService.no_options Scenario.fresh ScenarioOutage.timeout
                         H1 H2 H3))).
Defined.

(** ** The refresh of credentials *)
Section Refresh.
Import RefreshRace RefreshFacts.
Variable w : World.
Variable token_endpoint : nat -> GmailAdapter.Tokens.
Variable accountId : string.
Variable c0 : AccountCredentials.
Hypothesis vault_up : vault_outage w = None.
Hypothesis refresh_tokens : forall n, oauth_of (token_endpoint n) <> None.

Lemma getAccountCredentials_found st current :
  vault st !! accountId = Some current ->
  VaultService.getAccountCredentials w accountId st = (Ok (Some current), st).
Proof.
  intros H. unfold VaultService.getAccountCredentials. rewrite vault_up.
  unfold bind, gets. rewrite H. reflexivity.
Qed.

Lemma storeAccountCredentials_written st credentials :
  VaultService.storeAccountCredentials w accountId credentials st
  = (Ok tt, with_vault st (<[accountId := credentials]> (vault st))).
Proof.
  unfold VaultService.storeAccountCredentials, try_catch, bind, external.
  rewrite vault_up. reflexivity.
Qed.

Lemma issued_more n o : issued token_endpoint n o -> issued token_endpoint (S n) o.
Proof. intros (k & Hk & Ho). exists k. split; [lia | exact Ho]. Qed.

Lemma refreshed_more n c : refreshed token_endpoint n c0 c -> refreshed token_endpoint (S n) c0 c.
Proof.
  intros (Hf & o & Ho & Hi). split; [exact Hf|]. exists o. split; [exact Ho|].
  apply issued_more. exact Hi.
Qed.

Lemma pc_ok_more n pc : pc_ok token_endpoint n c0 pc -> pc_ok token_endpoint (S n) c0 pc.
Proof.
  destruct pc as [|tokens|o credentials|[u|e]]; simpl; auto.
  - intros (o & Hi & Ho). exists o. split; [apply issued_more; exact Hi | exact Ho].
  - intros (Hi & Hf). split; [apply issued_more; exact Hi | exact Hf].
Qed.

Lemma same_account_fields_set_oauth credentials o :
  same_account_fields credentials c0 ->
  same_account_fields (VaultService.set_oauth credentials o) c0.
Proof. intros H. exact H. Qed.

(** One step of one worker, seen from that worker: [mine] is its program
    counter, [other] the one of the other worker. *)
Lemma step_invariant mine other sh :
  pc_ok token_endpoint (refreshes sh) c0 mine ->
  pc_ok token_endpoint (refreshes sh) c0 other ->
  refreshes sh = (past_refresh mine + past_refresh other)%nat ->
  length (persisted sh) = (wrote mine + wrote other)%nat ->
  Forall (refreshed token_endpoint (refreshes sh) c0) (persisted sh) ->
  (exists current,
     vault (platform sh) !! accountId = Some current
     /\ same_account_fields current c0
     /\ (persisted sh = [] \/ last (persisted sh) = Some current)) ->
  let '(mine', sh') := step w token_endpoint accountId mine sh in
  pc_ok token_endpoint (refreshes sh') c0 mine'
  /\ pc_ok token_endpoint (refreshes sh') c0 other
  /\ refreshes sh' = (past_refresh mine' + past_refresh other)%nat
  /\ length (persisted sh') = (wrote mine' + wrote other)%nat
  /\ Forall (refreshed token_endpoint (refreshes sh') c0) (persisted sh')
  /\ exists current,
       vault (platform sh') !! accountId = Some current
       /\ same_account_fields current c0
       /\ (persisted sh' = [] \/ last (persisted sh') = Some current).
Proof.
  intros Hmine Hother Hrefresh Hwrote Hall (current & Hvault & Hfields & Hlast).
  destruct mine as [|tokens|o credentials|outcome]; simpl.
  - (* the client asks the provider for new tokens *)
    split; [|split; [|split; [|split; [|split]]]].
    + destruct (oauth_of (token_endpoint (refreshes sh))) as [o|] eqn:Ho;
        [|exfalso; eapply refresh_tokens; exact Ho].
      exists o. split; [|reflexivity]. exists (refreshes sh). split; [lia | exact Ho].
    + apply pc_ok_more. exact Hother.
    + simpl in Hrefresh. lia.
    + exact Hwrote.
    + eapply Forall_impl; [exact Hall|]. intros c. apply refreshed_more.
    + exists current. auto.
  - (* the listener reads the credentials *)
    destruct Hmine as (o & Hissued & Ho). unfold oauth_of in Ho.
    destruct (JS.truthy (GmailAdapter.tok_refresh_token tokens)) as [refresh|];
      [|discriminate].
    simpl in Ho. injection Ho as Ho.
    rewrite (getAccountCredentials_found _ _ Hvault). simpl.
    split; [|split; [|split; [|split; [|split]]]]; auto.
    + rewrite Ho. split; assumption.
    + exists current. auto.
  - (* the listener writes the credentials *)
    destruct Hmine as (Hissued & Hcred).
    rewrite storeAccountCredentials_written. simpl.
    split; [exact I|]. split; [exact Hother|]. split; [exact Hrefresh|].
    split; [rewrite length_app; simpl in *; lia|]. split.
    + apply Forall_app. split; [exact Hall|]. constructor; [|constructor].
      split; [apply same_account_fields_set_oauth; exact Hcred|].
      exists o. split; [reflexivity | exact Hissued].
    + exists (VaultService.set_oauth credentials o). split; [apply lookup_insert_eq|].
      split; [apply same_account_fields_set_oauth; exact Hcred|].
      right. apply last_snoc.
  - (* nothing left to do *)
    split; [exact Hmine|]. split; [exact Hother|]. split; [exact Hrefresh|].
    split; [exact Hwrote|]. split; [exact Hall|]. exists current. auto.
Qed.

Lemma step_keeps_invariant who c :
  invariant token_endpoint accountId c0 c ->
  invariant token_endpoint accountId c0
    (Interleaving.step (step w token_endpoint accountId) (step w token_endpoint accountId)
       who c).
Proof.
  destruct c as [a b sh]. unfold invariant. simpl.
  intros (Ha & Hb & Hr & Hw & Hall & Hv).
  destruct who; simpl.
  - pose proof (step_invariant a b sh Ha Hb Hr Hw Hall Hv) as H.
    destruct (step w token_endpoint accountId a sh) as [a' sh']. simpl. exact H.
  - assert (refreshes sh = (past_refresh b + past_refresh a)%nat) as Hr' by lia.
    assert (length (persisted sh) = (wrote b + wrote a)%nat) as Hw' by lia.
    pose proof (step_invariant b a sh Hb Ha Hr' Hw' Hall Hv) as H.
    destruct (step w token_endpoint accountId b sh) as [b' sh']. simpl.
    destruct H as (H1 & H2 & H3 & H4 & H5 & H6).
    split; [exact H2|]. split; [exact H1|]. split; [lia|]. split; [lia|].
    split; [exact H5 | exact H6].
Qed.

Lemma run_keeps_invariant schedule c :
  invariant token_endpoint accountId c0 c ->
  invariant token_endpoint accountId c0
    (Interleaving.run (step w token_endpoint accountId) (step w token_endpoint accountId)
       schedule c).
Proof.
  revert c. induction schedule as [|who schedule IH]; intros c Hc; simpl; [exact Hc|].
  apply IH. apply step_keeps_invariant. exact Hc.
Qed.

End Refresh.

(** The two steps of the listener, run without interruption, are
    [on_tokens]. *)
Lemma on_tokens_steps w token_endpoint accountId tokens s n p :
  let '(pc1, sh1) :=
    RefreshRace.step w token_endpoint accountId (RefreshRace.Refreshed tokens)
      (RefreshRace.mkShared s n p) in
  let '(pc2, sh2) := RefreshRace.step w token_endpoint accountId pc1 sh1 in
  pc2 = RefreshRace.Done (fst (GmailAdapter.on_tokens w accountId tokens s))
  /\ RefreshRace.platform sh2 = snd (GmailAdapter.on_tokens w accountId tokens s).
Proof.
  unfold GmailAdapter.on_tokens. simpl.
  destruct (JS.truthy (GmailAdapter.tok_refresh_token tokens)) as [refresh|];
    [|split; reflexivity].
  unfold VaultService.updateOAuthTokens, try_catch, bind,
    VaultService.getAccountCredentials, VaultService.storeAccountCredentials,
    RefreshRace.rejected, try_catch, bind, external.
  destruct (vault_outage w) as [e|] eqn:Hv; simpl.
  - split; reflexivity.
  - destruct (vault s !! accountId) as [credentials|]; simpl.
    + unfold VaultService.storeAccountCredentials, try_catch, bind, external.
      rewrite Hv. simpl. split; reflexivity.
    + split; reflexivity.
Qed.

(** C8, as amended. No lock guards the refresh.  Of two workers that find
    the access token of an account expired, each asks the provider for new
    tokens and each writes the tokens it got to the vault, by a read and a
    write that the other worker's may come between: when both are through,
    there were two refreshes and two writes, both of credentials of the
    account that carry tokens the provider issued, and the vault holds the
    credentials written last, with the fields other than the tokens as they
    were. *)
Theorem C8_every_worker_refreshes w token_endpoint accountId c0 s schedule :
  vault_outage w = None ->
  vault s !! accountId = Some c0 ->
  (forall n, RefreshFacts.oauth_of (token_endpoint n) <> None) ->
  let c := RefreshRace.run w token_endpoint accountId schedule s in
  RefreshRace.finished c = true ->
  RefreshRace.refreshes (Interleaving.shared c) = 2%nat
  /\ exists first second,
       RefreshRace.persisted (Interleaving.shared c) = [first; second]
       /\ RefreshFacts.refreshed token_endpoint 2 c0 first
       /\ RefreshFacts.refreshed token_endpoint 2 c0 second
       /\ vault (RefreshRace.platform (Interleaving.shared c)) !! accountId = Some second.
Proof.
  intros Hup Hc0 Htokens c Hdone.
  assert (RefreshFacts.invariant token_endpoint accountId c0 c) as Hinv.
  { apply run_keeps_invariant; [exact Hup | exact Htokens |].
    unfold RefreshFacts.invariant, RefreshRace.start. simpl.
    repeat split; auto. exists c0. repeat split; auto. }
  unfold RefreshFacts.invariant in Hinv.
  destruct Hinv as (Ha & Hb & Hr & Hw & Hall & current & Hvault & _ & Hlast).
  unfold RefreshRace.finished in Hdone. apply andb_true_iff in Hdone as [Hda Hdb].
  destruct (Interleaving.pcA c) as [| | |[ua|ea]]; try discriminate; [|destruct Ha].
  destruct (Interleaving.pcB c) as [| | |[ub|eb]]; try discriminate; [|destruct Hb].
  simpl in Hr, Hw. rewrite Hr in Hall |- *. split; [reflexivity|].
  destruct (RefreshRace.persisted (Interleaving.shared c)) as [|p1 [|p2 [|p3 rest]]];
    try discriminate.
  exists p1, p2. split; [reflexivity|].
  apply Forall_cons in Hall as [H1 Hall]. apply Forall_cons in Hall as [H2 _].
  split; [exact H1|]. split; [exact H2|].
  destruct Hlast as [Hnil|Hlast]; [discriminate|].
  simpl in Hlast. injection Hlast as <-. exact Hvault.
Qed.

(** Two workers, each through its refresh before the other starts: two
    refreshes, two writes. *)
Lemma C8_race_safe_counterexample :
  ~ RefreshRace.race_safe Scenario.world_B RefreshFacts.token_endpoint Scenario.account
      Scenario.fresh.
Proof.
  intros H.
  specialize (H [Interleaving.A; Interleaving.A; Interleaving.A;
                 Interleaving.B; Interleaving.B; Interleaving.B] eq_refl).
  vm_compute in H. destruct H as [H _]. discriminate.
Qed.

(** The update that is lost: worker A is issued tokens first, worker B is
    issued the tokens that supersede them and writes them, and then A
    writes its own; the vault ends with the superseded tokens. *)
Lemma refresh_lost_update :
  let c := RefreshRace.run Scenario.world_B RefreshFacts.token_endpoint Scenario.account
             [Interleaving.A; Interleaving.B; Interleaving.B; Interleaving.B;
              Interleaving.A; Interleaving.A] Scenario.fresh in
  RefreshRace.finished c = true
  /\ RefreshRace.refreshes (Interleaving.shared c) = 2%nat
  /\ option_map oauth (vault (RefreshRace.platform (Interleaving.shared c)) !! Scenario.account)
     = Some (RefreshFacts.oauth_of (RefreshFacts.token_endpoint 0)).
Proof. vm_compute. repeat split. Qed.

Lemma C8_every_worker_refreshes_witness :
  RefreshRace.refreshes
    (Interleaving.shared
       (RefreshRace.run Scenario.world_B RefreshFacts.token_endpoint Scenario.account
          [Interleaving.A; Interleaving.B; Interleaving.B; Interleaving.B;
           Interleaving.A; Interleaving.A] Scenario.fresh))
  = 2%nat.
Proof.
  assert (forall n, RefreshFacts.oauth_of (RefreshFacts.token_endpoint n) <> None) as Htokens
    by (intros n; discriminate).
  exact (proj1 (C8_every_worker_refreshes Scenario.world_B RefreshFacts.token_endpoint
                  Scenario.account Scenario.credentials Scenario.fresh
                  [Interleaving.A; Interleaving.B; Interleaving.B; Interleaving.B;
                   Interleaving.A; Interleaving.A]
                  eq_refl eq_refl Htokens eq_refl)).
Defined.

(** ** Overlapping syncs *)
Section Serialization.
Import SyncRace SyncFacts.
Variable accountId : string.

Lemma status_in_update status error d :
  status_in accountId (Sql.update_account_status accountId status error d)
  = option_map (fun _ => status) (status_in accountId d).
Proof.
  unfold status_in. rewrite (select_after_status accountId status error).
  destruct (Sql.select_account accountId d); reflexivity.
Qed.

Lemma status_in_cursor cursor lastSyncAt d :
  status_in accountId (Sql.update_sync_cursor accountId cursor lastSyncAt d)
  = status_in accountId d.
Proof.
  unfold status_in. rewrite (select_after_cursor accountId cursor lastSyncAt).
  destruct (Sql.select_account accountId d); reflexivity.
Qed.

Lemma running_in_closed (close : Db.SyncJobRow -> Db.SyncJobRow) id jobs :
  (forall j, Db.job_account_id (close j) = Db.job_account_id j) ->
  (forall j, SyncJobStatus_eqb (Db.job_status (close j)) running = false) ->
  List.filter
    (fun j => String.eqb (Db.job_account_id j) accountId
              && SyncJobStatus_eqb (Db.job_status j) running)
    (List.map (fun j => if Nat.eqb (Db.job_id j) id then close j else j) jobs)
  = List.filter (fun j => negb (Nat.eqb (Db.job_id j) id))
      (List.filter
         (fun j => String.eqb (Db.job_account_id j) accountId
                   && SyncJobStatus_eqb (Db.job_status j) running)
         jobs).
Proof.
  intros Hacc Hst. induction jobs as [|j jobs IH]; simpl; [reflexivity|].
  destruct (Nat.eqb (Db.job_id j) id) eqn:E.
  - rewrite Hst, andb_false_r.
    destruct (String.eqb (Db.job_account_id j) accountId
              && SyncJobStatus_eqb (Db.job_status j) running); simpl.
    + rewrite E. simpl. exact IH.
    + exact IH.
  - destruct (String.eqb (Db.job_account_id j) accountId
              && SyncJobStatus_eqb (Db.job_status j) running); simpl.
    + rewrite E. simpl. f_equal. exact IH.
    + exact IH.
Qed.

Lemma running_in_completed n id NOW d :
  running_in accountId (Sql.update_sync_job_completed n id NOW d)
  = List.filter (fun j => negb (Nat.eqb (Db.job_id j) id)) (running_in accountId d).
Proof.
  unfold running_in, Sql.update_sync_job_completed. simpl.
  apply (running_in_closed
           (fun j => Db.mkSyncJobRow (Db.job_id j) (Db.job_account_id j) completed
                       (Db.job_started_at j) (Some NOW) n (Db.job_error_message j)));
    reflexivity.
Qed.

Lemma running_in_failed message id NOW d :
  running_in accountId (Sql.update_sync_job_failed message id NOW d)
  = List.filter (fun j => negb (Nat.eqb (Db.job_id j) id)) (running_in accountId d).
Proof.
  unfold running_in, Sql.update_sync_job_failed. simpl.
  apply (running_in_closed
           (fun j => Db.mkSyncJobRow (Db.job_id j) (Db.job_account_id j) failed
                       (Db.job_started_at j) (Some NOW) (Db.job_messages_synced j)
                       (Some message)));
    reflexivity.
Qed.

(** The outer [catch] block touches the account and the log. *)
Lemma on_failure_effect e s :
  exists r s',
    SyncService.on_failure accountId e s = (Ok r, s')
    /\ Db.sync_jobs (db s') = Db.sync_jobs (db s)
    /\ status_in accountId (db s') = option_map (fun _ => auth_failed) (status_in accountId (db s)).
Proof.
  unfold SyncService.on_failure, bind, logger, modify,
    AccountService.updateAccountStatus, db_update, modify. simpl.
  eexists. eexists. split; [reflexivity|]. split; [reflexivity|].
  simpl. apply status_in_update.
Qed.

End Serialization.

Section SerializationSteps.
Import SyncRace SyncFacts.
Variable accountId : string.
Variable options : SyncService.Options.

Lemma check_active_cases s :
  (exists a, SyncService.check_active accountId s = (Ok (Some a), s)
             /\ status_in accountId (db s) = Some active)
  \/ (exists s', SyncService.check_active accountId s = (Ok None, s') /\ db s' = db s)
  \/ (exists e, SyncService.check_active accountId s = (Throw e, s)
                /\ status_in accountId (db s) = None).
Proof.
  unfold status_in.
  destruct (Sql.select_account accountId (db s)) as [a|] eqn:Hsel.
  - destruct (AccountStatus_eqb (Db.acc_status a) active) eqn:Hst.
    + left. exists a. assert (Db.acc_status a = active) as Hact
        by (destruct (Db.acc_status a); try discriminate; reflexivity).
      split; [apply check_active_active; assumption|]. simpl. rewrite Hact. reflexivity.
    + right. left. eexists. split.
      * apply (check_active_inactive _ _ a Hsel). intros Hact. rewrite Hact in Hst.
        discriminate.
      * reflexivity.
  - right. right. eexists. split; [|reflexivity].
    unfold SyncService.check_active, bind, AccountService.getAccountById, db_read, gets.
    rewrite Hsel. reflexivity.
Qed.

Lemma not_critical pc :
  critical pc = false -> in_window pc = false /\ inside pc = false /\ held pc = None.
Proof. destruct pc; simpl; intros H; try discriminate; auto. Qed.

Lemma invariant_idle mine other s :
  critical mine = false ->
  running_in accountId (db s) = [] \/ held other <> None ->
  (inside other = true -> status_in accountId (db s) = Some syncing) ->
  (in_window other = true -> status_in accountId (db s) <> None) ->
  match held other with
  | Some id => exists j, running_in accountId (db s) = [j] /\ Db.job_id j = id
  | None => running_in accountId (db s) = []
  end ->
  invariant accountId mine other s.
Proof.
  intros Hc _ Hin Hwin Hjobs. destruct (not_critical _ Hc) as (Hw & Hi & Hh).
  unfold invariant. rewrite Hc, Hw, Hi, Hh. simpl.
  split; [reflexivity|]. split; [exact Hin|]. split; [exact Hwin|].
  destruct (held other); exact Hjobs.
Qed.

Lemma step_invariant_sync w mine other s :
  invariant accountId mine other s ->
  at_start mine && in_window other = false ->
  let '(mine', s') := step w accountId options mine s in
  invariant accountId mine' other s'.
Proof.
  intros (Hcrit & Hin & Hwin & Hjobs) Happart.
  change (account_status accountId s) with (status_in accountId (db s)) in Hin, Hwin.
  change (running_jobs accountId s) with (running_in accountId (db s)) in Hjobs.
  destruct mine as [|a|a|sinceDate|sinceDate syncJobId|r]; simpl step.
  - (* the status check *)
    simpl in Happart, Hcrit, Hin, Hwin, Hjobs. unfold stretch.
    destruct (check_active_cases s)
      as [(a & Hrun & Hst) | [(s' & Hrun & Hdb) | (e & Hrun & Hst)]]; rewrite Hrun.
    + assert (inside other = false) as Hio.
      { destruct (inside other) eqn:E; [|reflexivity].
        rewrite (Hin eq_refl) in Hst. discriminate. }
      unfold invariant, critical. simpl. rewrite Happart, Hio. simpl.
      split; [reflexivity|]. split; [discriminate|]. split.
      * intros _. change (account_status accountId s) with (status_in accountId (db s)).
        rewrite Hst. discriminate.
      * exact Hjobs.
    + unfold invariant. simpl.
      change (account_status accountId s') with (status_in accountId (db s')).
      change (running_jobs accountId s') with (running_in accountId (db s')).
      rewrite Hdb. auto.
    + destruct (on_failure_effect accountId e s) as (r & s' & Hf & Hj & Hs). rewrite Hf.
      unfold invariant. simpl.
      change (account_status accountId s') with (status_in accountId (db s')).
      change (running_jobs accountId s') with (running_in accountId (db s')).
      unfold running_in in *. rewrite Hj.
      split; [reflexivity|]. split; [|split; [|exact Hjobs]].
      * intros Hio. rewrite (Hin Hio) in Hst. discriminate.
      * intros Hwo. rewrite Hwo in Happart. discriminate.
  - (* the update of the status *)
    simpl in Hcrit. destruct (not_critical _ Hcrit) as (Hwo & Hio & Hho).
    unfold stretch, SyncService.mark_syncing, AccountService.updateAccountStatus,
      db_update, modify.
    unfold invariant, critical. simpl. rewrite Hwo, Hio, Hho. simpl.
    split; [reflexivity|]. split; [|split; [discriminate|]].
    + intros _.
      change (status_in accountId
                (Sql.update_account_status accountId syncing None (db s)) = Some syncing).
      rewrite status_in_update.
      destruct (status_in accountId (db s)); [reflexivity|].
      exfalso. apply Hwin; reflexivity.
    + simpl in Hjobs. rewrite Hho in Hjobs. exact Hjobs.
  - (* the credentials and the connection *)
    simpl in Hcrit. destruct (not_critical _ Hcrit) as (Hwo & Hio & Hho).
    simpl in Hin, Hjobs. rewrite Hho in Hjobs.
    unfold stretch.
    pose proof (connect_keeps_db w accountId options a s) as Hk. unfold keeps in Hk.
    destruct (SyncService.connect w accountId options a s) as [[since|e] s1]; simpl in Hk.
    + unfold invariant, critical. simpl. rewrite Hwo, Hio, Hho. simpl.
      change (account_status accountId s1) with (status_in accountId (db s1)).
      change (running_jobs accountId s1) with (running_in accountId (db s1)).
      rewrite Hk. split; [reflexivity|]. split; [intros _; apply Hin; reflexivity|].
      split; [discriminate | exact Hjobs].
    + destruct (on_failure_effect accountId e s1) as (r & s' & Hf & Hj & Hs). rewrite Hf.
      apply invariant_idle; [reflexivity | | | |].
      * left. unfold running_in in *. rewrite Hj, Hk. exact Hjobs.
      * rewrite Hio. discriminate.
      * rewrite Hwo. discriminate.
      * rewrite Hho. unfold running_in in *. rewrite Hj, Hk. exact Hjobs.
  - (* the creation of the job *)
    simpl in Hcrit. destruct (not_critical _ Hcrit) as (Hwo & Hio & Hho).
    simpl in Hin, Hjobs. rewrite Hho in Hjobs.
    specialize (Hin eq_refl).
    assert (existsb (fun a => String.eqb (Db.acc_id a) accountId) (Db.accounts (db s)) = true)
      as Hex.
    { unfold status_in in Hin.
      destruct (Sql.select_account accountId (db s)) as [a|] eqn:Hsel; [|discriminate].
      apply (find_account_exists _ _ a). exact Hsel. }
    unfold stretch. rewrite (createSyncJob_ok w accountId s Hex).
    unfold invariant, critical. simpl. rewrite Hwo, Hio, Hho. simpl.
    split; [reflexivity|]. split; [intros _; exact Hin|]. split; [discriminate|].
    eexists. split.
    { change (running_jobs accountId ?st) with (running_in accountId (db st)).
      unfold running_in in *. simpl. rewrite List.filter_app, Hjobs. simpl.
      rewrite String.eqb_refl. reflexivity. }
    reflexivity.
  - (* the fetch, the stores and the completion of the job *)
    simpl in Hcrit. destruct (not_critical _ Hcrit) as (Hwo & Hio & Hho).
    simpl in Hin, Hjobs. rewrite Hho in Hjobs.
    destruct Hjobs as (j & Hjobs & Hid).
    assert (List.filter (fun j => negb (Nat.eqb (Db.job_id j) syncJobId))
              (running_in accountId (db s)) = []) as Hclosed.
    { rewrite Hjobs. simpl. rewrite Hid, Nat.eqb_refl. reflexivity. }
    unfold stretch.
    destruct (run_job_outcome w accountId options sinceDate syncJobId s)
      as [(n & s1 & Hrun & Ho) | (e & Hrun)]; rewrite Hrun.
    + unfold orchestration in Ho. injection Ho as _ Hsj _ _.
      apply invariant_idle; [reflexivity | | | |].
      * left. unfold job_done. simpl db.
        change (running_in accountId
                  (Sql.update_sync_job_completed n syncJobId (now w) (db s1)) = []).
        rewrite running_in_completed. unfold running_in in *. rewrite Hsj. exact Hclosed.
      * rewrite Hio. discriminate.
      * rewrite Hwo. discriminate.
      * rewrite Hho. unfold job_done. simpl db.
        change (running_in accountId
                  (Sql.update_sync_job_completed n syncJobId (now w) (db s1)) = []).
        rewrite running_in_completed. unfold running_in in *. rewrite Hsj. exact Hclosed.
    + destruct (on_failure_effect accountId e (job_failed w accountId syncJobId e s))
        as (r & s' & Hf & Hj & Hs). rewrite Hf.
      assert (running_in accountId (db s') = []) as Hnone.
      { unfold running_in at 1. rewrite Hj. unfold job_failed. simpl db.
        change (running_in accountId
                  (Sql.update_sync_job_failed (err_message e) syncJobId (now w) (db s)) = []).
        rewrite running_in_failed. exact Hclosed. }
      apply invariant_idle; [reflexivity | | | |].
      * left. exact Hnone.
      * rewrite Hio. discriminate.
      * rewrite Hwo. discriminate.
      * rewrite Hho. exact Hnone.
  - (* the call has returned *)
    unfold invariant. auto.
Qed.

End SerializationSteps.

Lemma invariant_sym accountId mine other s :
  SyncFacts.invariant accountId mine other s -> SyncFacts.invariant accountId other mine s.
Proof.
  unfold SyncFacts.invariant. intros (H1 & H2 & H3 & H4).
  rewrite andb_comm. split; [exact H1|].
  split; [intros H; apply H2; rewrite orb_comm; exact H|].
  split; [intros H; apply H3; rewrite orb_comm; exact H|].
  destruct (SyncFacts.held mine), (SyncFacts.held other); exact H4.
Qed.

Lemma run_in_trace {Pc St} (stepA stepB : Pc -> St -> Pc * St) schedule c :
  In (Interleaving.run stepA stepB schedule c) (Interleaving.trace stepA stepB schedule c).
Proof.
  revert c. induction schedule as [|who schedule IH]; intros c; simpl.
  - left. reflexivity.
  - right. apply IH.
Qed.

Lemma trace_invariant wA wB accountId options schedule c :
  SyncFacts.invariant accountId (Interleaving.pcA c) (Interleaving.pcB c)
    (Interleaving.shared c) ->
  SyncRace.check_apart wA wB accountId options schedule c = true ->
  forall c',
    In c' (Interleaving.trace (SyncRace.step wA accountId options)
             (SyncRace.step wB accountId options) schedule c) ->
    SyncFacts.invariant accountId (Interleaving.pcA c') (Interleaving.pcB c')
      (Interleaving.shared c').
Proof.
  revert c. induction schedule as [|who schedule IH]; intros c Hinv Hapart c' Hin; simpl in *.
  - destruct Hin as [<-|[]]. exact Hinv.
  - destruct Hin as [<-|Hin]; [exact Hinv|].
    apply andb_true_iff in Hapart as [Hnow Hrest].
    apply negb_true_iff in Hnow.
    refine (IH _ _ Hrest c' Hin).
    destruct c as [a b s]. destruct who; simpl in *.
    + pose proof (step_invariant_sync accountId options wA a b s Hinv Hnow) as H.
      destruct (SyncRace.step wA accountId options a s) as [a' s']. exact H.
    + pose proof (step_invariant_sync accountId options wB b a s
                    (invariant_sym _ _ _ _ Hinv) Hnow) as H.
      destruct (SyncRace.step wB accountId options b s) as [b' s']. simpl.
      apply invariant_sym. exact H.
Qed.

(** The five stretches of a call, run without interruption, are
    [syncAccount]. *)
Lemma syncAccount_steps w accountId options s :
  let step := SyncRace.step w accountId options in
  let '(pc1, s1) := step SyncRace.Start s in
  let '(pc2, s2) := step pc1 s1 in
  let '(pc3, s3) := step pc2 s2 in
  let '(pc4, s4) := step pc3 s3 in
  let '(pc5, s5) := step pc4 s4 in
  (pc5, s5)
  = (SyncRace.Finished (fst (SyncService.syncAccount w accountId options s)),
     snd (SyncService.syncAccount w accountId options s)).
Proof.
  assert (forall e st,
            (let '(r, s'') := SyncService.on_failure accountId e st in
             (SyncRace.Finished r, s''))
            = (SyncRace.Finished (fst (SyncService.on_failure accountId e st)),
               snd (SyncService.on_failure accountId e st))) as Hfail.
  { intros e st. destruct (SyncService.on_failure accountId e st). reflexivity. }
  unfold SyncService.syncAccount, try_catch, SyncService.sync_body, bind.
  cbn [SyncRace.step]. unfold SyncRace.stretch.
  destruct (SyncService.check_active accountId s) as [[[a|]|e] s1]; cbn [fst snd].
  - cbn [SyncRace.step]. unfold SyncRace.stretch.
    destruct (SyncService.mark_syncing accountId s1) as [[u|e] s2]; cbn [fst snd].
    + cbn [SyncRace.step]. unfold SyncRace.stretch.
      destruct (SyncService.connect w accountId options a s2) as [[since|e] s3];
        cbn [fst snd].
      * cbn [SyncRace.step]. unfold SyncRace.stretch.
        destruct (SyncService.createSyncJob w accountId s3) as [[id|e] s4]; cbn [fst snd].
        -- cbn [SyncRace.step]. unfold SyncRace.stretch.
           destruct (SyncService.run_job w accountId options since id s4) as [[r|e] s5];
             cbn [fst snd]; [reflexivity | apply Hfail].
        -- rewrite Hfail. reflexivity.
      * rewrite Hfail. reflexivity.
    + rewrite Hfail. reflexivity.
  - reflexivity.
  - rewrite Hfail. reflexivity.
Qed.

(** C2, as amended. The status check and the update of the status are two
    statements, and no lock spans them.  As long as no call checks the
    status of the account between the check of another call and that call's
    update (in particular when the calls run one after the other), the
    account has at most one running job at every moment. *)
Theorem C2_one_running_job_unless_checks_overlap wA wB accountId options s schedule :
  SyncRace.running_jobs accountId s = [] ->
  SyncRace.check_apart wA wB accountId options schedule (SyncRace.start s) = true ->
  forall c,
    In c (SyncRace.trace wA wB accountId options schedule s) ->
    (length (SyncRace.running_jobs accountId (Interleaving.shared c)) <= 1)%nat.
Proof.
  intros Hnone Hapart c Hin.
  assert (SyncFacts.invariant accountId (Interleaving.pcA c) (Interleaving.pcB c)
            (Interleaving.shared c)) as (_ & _ & _ & Hjobs).
  { apply (trace_invariant wA wB accountId options schedule (SyncRace.start s));
      [|exact Hapart | exact Hin].
    unfold SyncFacts.invariant. simpl. repeat split; try discriminate. exact Hnone. }
  destruct (SyncFacts.held (Interleaving.pcA c)), (SyncFacts.held (Interleaving.pcB c));
    try contradiction;
    try (destruct Hjobs as (j & -> & _); simpl; lia).
  rewrite Hjobs. simpl. lia.
Qed.

(** Two calls whose status checks overlap both create a running job. *)
Lemma C2_serialized_counterexample :
  ~ SyncRace.serialized Scenario.world_A Scenario.world_A Scenario.account
      SyncService.no_options Scenario.fresh.
Proof.
  intros H.
  specialize (H ScenarioRace.overlapping _ (run_in_trace _ _ _ _)).
  vm_compute in H. lia.
Qed.

Lemma C2_one_running_job_unless_checks_overlap_witness :
  (length
     (SyncRace.running_jobs Scenario.account
        (Interleaving.shared
           (Interleaving.run
              (SyncRace.step Scenario.world_A Scenario.account SyncService.no_options)
              (SyncRace.step Scenario.world_A Scenario.account SyncService.no_options)
              ScenarioRace.one_after_the_other (SyncRace.start Scenario.fresh))))
   <= 1)%nat.
Proof.
  assert (SyncRace.check_apart Scenario.world_A Scenario.world_A Scenario.account
            SyncService.no_options ScenarioRace.one_after_the_other
            (SyncRace.start Scenario.fresh) = true) as Hapart
    by (vm_compute; reflexivity).
  exact (C2_one_running_job_unless_checks_overlap Scenario.world_A Scenario.world_A
           Scenario.account SyncService.no_options Scenario.fresh
           ScenarioRace.one_after_the_other eq_refl Hapart _ (run_in_trace _ _ _ _)).
Defined.
